(** * dlcoracle: the Discreet Log Contract oracle signature core

    A shallow embedding of the Go package [dlcoracle]
    (github.com/mit-dci/dlc-oracle-go) and of the parts of its
    dependencies that the package calls: [math/big], [bytes],
    [encoding/binary], the builtin slice operations [append] and [copy],
    and the secp256k1 package [btcec].

    Layout: definitions first (Go runtime, big integers, the curve
    package, the oracle package, its test-data generator, a small curve
    used to exercise the theorems), then the algebra of the curve, then
    the properties of the oracle functions. *)

From Stdlib Require Import String Ascii DecimalString.
From Stdlib Require Import ZArith Lia Bool Strings.Byte List.
Import ListNotations.
Local Open Scope Z_scope.

(* ================================================================== *)
(** ** Bytes, slices and the builtins [append] and [copy] *)

Module Go.

(** The numeric value of a byte, and Go's conversion [byte(x)], which
    keeps the low eight bits. *)
Definition byte_val (b : byte) : Z := Z.of_N (Byte.to_N b).

Definition byte_of_Z (z : Z) : byte :=
  match Byte.of_N (Z.to_N (z mod 256)) with
  | Some b => b
  | None => x00
  end.

(** A zeroed array [var a [n]byte]. *)
Definition zeroed (n : nat) : list byte := repeat x00 n.

(** A slice as its caller sees it: the backing array from the slice's
    first element up to its capacity, and the length.  The elements
    [len ..] of [arr] are the spare capacity. *)
Record slice : Type := mkSlice { arr : list byte; len : nat }.

Definition cap (s : slice) : nat := length (arr s).

(** The elements [s[0:len(s)]]. *)
Definition contents (s : slice) : list byte := firstn (len s) (arr s).

(** A slice that uses its whole backing array. *)
Definition of_list (l : list byte) : slice := mkSlice l (length l).

(** [append(s, xs...)].  When the capacity suffices the new elements
    are written into the backing array of [s], past its length, and
    the result shares that array; otherwise a new array is allocated
    and the old one is left alone (the capacity of the new array is
    not modelled: nothing is appended to it).  The second component is
    the backing array of [s] after the call. *)
Definition append (s : slice) (xs : list byte) : slice * list byte :=
  if (len s + length xs <=? cap s)%nat then
    let arr' := firstn (len s) (arr s) ++ xs
                ++ skipn (len s + length xs) (arr s) in
    (mkSlice arr' (len s + length xs), arr')
  else
    (of_list (contents s ++ xs), arr s).

(** [copy(dst, src)] on an array or a slice that the caller owns:
    the first [min(len(dst), len(src))] elements are overwritten. *)
Definition copy (dst src : list byte) : list byte :=
  let n := Nat.min (length dst) (length src) in
  firstn n src ++ skipn n dst.

(** [copy(a[off:], src)]: the elements before [off] are untouched. *)
Definition copy_at (off : nat) (dst src : list byte) : list byte :=
  firstn off dst ++ copy (skipn off dst) src.

End Go.

(* ================================================================== *)
(** ** [math/big], [bytes] and [encoding/binary] *)

Module big.

(** [n] bytes, big-endian, of [x] modulo [256^n]. *)
Fixpoint be_bytes (n : nat) (x : Z) : list byte :=
  match n with
  | O => []
  | S n' => be_bytes n' (x / 256) ++ [Go.byte_of_Z x]
  end.

(** [z.SetBytes(buf)]: [buf] read as a big-endian unsigned integer. *)
Definition SetBytes (buf : list byte) : Z :=
  fold_left (fun acc b => acc * 256 + Go.byte_val b) buf 0.

(** [x.BitLen()]: the length of the absolute value in bits; 0 for 0. *)
Definition BitLen (x : Z) : Z :=
  match x with
  | Z0 => 0
  | Zpos p | Zneg p => Zpos (Pos.size p)
  end.

(** The number of bytes of the absolute value. *)
Definition nbytes (x : Z) : nat := Z.to_nat ((BitLen x + 7) / 8).

(** [x.Bytes()]: the absolute value as a big-endian byte slice with no
    leading zero byte (empty for 0). *)
Definition Bytes (x : Z) : list byte := be_bytes (nbytes x) (Z.abs x).

(** [x.Cmp(y)]. *)
Definition Cmp (x y : Z) : Z :=
  match x ?= y with
  | Lt => -1
  | Eq => 0
  | Gt => 1
  end.

(** [z.Exp(x, y, m)] for a positive modulus, by square and multiply. *)
Fixpoint Exp_pos (x : Z) (y : positive) (m : Z) : Z :=
  match y with
  | xH => x mod m
  | xO y' => let r := Exp_pos x y' m in (r * r) mod m
  | xI y' => let r := Exp_pos x y' m in (x * ((r * r) mod m)) mod m
  end.

Definition Exp (x y m : Z) : Z :=
  match y with
  | Zpos p => Exp_pos x p m
  | _ => 1 mod m
  end.

End big.

Module bytes.

(** A [bytes.Buffer] is modelled by the bytes written to it, and
    [buf.Bytes()] by the slice it returns.  The first allocation of a
    buffer that holds at most 64 bytes has capacity 64 (the constant
    [smallBufferSize]; the [bootstrap] array of earlier releases), and
    [Bytes] returns a slice of that allocation: the spare capacity is
    zero bytes of the same array. *)
Definition Buffer_Bytes (buf : list byte) : Go.slice :=
  Go.mkSlice (buf ++ Go.zeroed (64 - length buf)) (length buf).

End bytes.

Module binary.

(** [binary.BigEndian.PutUint64]: byte [i] is [byte(v >> (56 - 8 i))]. *)
Definition PutUint64 (v : Z) : list byte :=
  map (fun sh => Go.byte_of_Z (Z.shiftr v sh)) [56; 48; 40; 32; 24; 16; 8; 0].

(** [binary.Write(&buf, binary.BigEndian, v)] for a [uint64] on a
    [bytes.Buffer], which appends the eight bytes to the buffer. *)
Definition Write (buf : list byte) (v : Z) : list byte := buf ++ PutUint64 v.

End binary.

(* ================================================================== *)
(** ** Errors *)

(** Go errors are values made by [fmt.Errorf]; one constructor per place
    that makes one, in [btcec.ParsePubKey] and in this package. *)
Inductive error : Type :=
| ErrPubKeyEmpty
| ErrInvalidMagic (format : byte)
| ErrYbitOddness
| ErrInvalidMagicCompressed (format : byte)
| ErrInvalidLength (n : nat)
| ErrXTooBig
| ErrYTooBig
| ErrNotOnCurve
| ErrHashPubTooBig
| ErrPrivZero
| ErrPrivOutOfBounds
| ErrKZero
| ErrKOutOfBounds
| ErrHashTooBig
| ErrSigZero.

Definition decimal (n : N) : string := NilEmpty.string_of_uint (N.to_uint n).

(** [err.Error()]. *)
Definition Error (e : error) : string :=
  match e with
  | ErrPubKeyEmpty => "pubkey string is empty"
  | ErrInvalidMagic b => "invalid magic in pubkey str: " ++ decimal (Byte.to_N b)
  | ErrYbitOddness => "ybit doesn't match oddness"
  | ErrInvalidMagicCompressed b =>
      "invalid magic in compressed pubkey string: " ++ decimal (Byte.to_N b)
  | ErrInvalidLength n => "invalid pub key length " ++ decimal (N.of_nat n)
  | ErrXTooBig => "pubkey X parameter is >= to P"
  | ErrYTooBig => "pubkey Y parameter is >= to P"
  | ErrNotOnCurve => "pubkey isn't on secp256k1 curve"
  | ErrHashPubTooBig => "hash of (msg, pubR) too big"
  | ErrPrivZero => "priv scalar is zero"
  | ErrPrivOutOfBounds => "priv scalar is out of bounds"
  | ErrKZero => "k scalar is zero"
  | ErrKOutOfBounds => "k scalar is out of bounds"
  | ErrHashTooBig => "hash of (m, R) too big"
  | ErrSigZero => "sig s 0 is zero"
  end%string.

(** The four kinds of failure that the specification names.  The Go
    errors carry no kind; this reading sends each error to the kind whose
    description it meets. *)
Inductive ErrorKind : Type :=
| InvalidScalar
| InvalidPublicKey
| InvalidChallenge
| InvalidSignature.

Definition kind_of (e : error) : ErrorKind :=
  match e with
  | ErrPrivZero | ErrPrivOutOfBounds | ErrKZero | ErrKOutOfBounds => InvalidScalar
  | ErrHashPubTooBig | ErrHashTooBig => InvalidChallenge
  | ErrSigZero => InvalidSignature
  | _ => InvalidPublicKey
  end.

(* ================================================================== *)
(** ** The curve package [btcec]

    [github.com/adiabat/btcd/btcec] is a dependency of the oracle
    package, not part of its repository; the functions the package
    calls are modelled after the library.  [btcec] works on 256-bit
    field values in Jacobian coordinates and converts to affine big
    integers at its interface.  The model gives the interface: affine
    coordinates, the point at infinity written [(0, 0)] as
    [crypto/elliptic] does, and the group operation by the chord and
    tangent rule.  The domain parameters are a record, so that the same
    code can be exercised on a curve small enough to enumerate; [S256]
    holds the parameters the oracle package hardcodes. *)

Module Curve.
Record params : Type :=
  mk { P : Z; N : Z; B : Z; Gx : Z; Gy : Z; BitSize : Z }.
End Curve.

Module btcec.

(** [btcec.S256()]: secp256k1. *)
Definition S256 : Curve.params :=
  {| Curve.P := 0xFFFFFFFFFFFFFFFFFFFFFFFFFFFFFFFFFFFFFFFFFFFFFFFFFFFFFFFEFFFFFC2F;
     Curve.N := 0xFFFFFFFFFFFFFFFFFFFFFFFFFFFFFFFEBAAEDCE6AF48A03BBFD25E8CD0364141;
     Curve.B := 7;
     Curve.Gx := 0x79BE667EF9DCBBAC55A06295CE870B07029BFCDB2DCE28D959F2815B16F81798;
     Curve.Gy := 0x483ADA7726A3C4655DA4FBFC0E1108A8FD17B448A68554199C47D08FFB10D4B8;
     Curve.BitSize := 256 |}.

(** A [PublicKey] is a pair of affine coordinates [X], [Y]. *)
Definition PublicKey : Type := (Z * Z)%type.
Definition X (p : PublicKey) : Z := fst p.
Definition Y (p : PublicKey) : Z := snd p.

Definition infinity : PublicKey := (0, 0).

Definition pubkeyCompressed : Z := 2.
Definition pubkeyUncompressed : Z := 4.
Definition pubkeyHybrid : Z := 6.
Definition PubKeyBytesLenCompressed : nat := 33.
Definition PubKeyBytesLenUncompressed : nat := 65.

Definition isOdd (a : Z) : bool := Z.odd a.

Section WithCurve.

Variable curve : Curve.params.

Let P := Curve.P curve.
Let N := Curve.N curve.

Definition byteSize : nat := Z.to_nat (Curve.BitSize curve / 8).

(** [curve.QPlus1Div4()]. *)
Definition QPlus1Div4 : Z := (P + 1) / 4.

(** [fieldVal.Inverse]: the inverse by Fermat's little theorem;
    the inverse of 0 is 0. *)
Definition inverse (x : Z) : Z := big.Exp x (P - 2) P.

(** [curve.IsOnCurve(x, y)]: [y^2 = x^3 + 7] in the field. *)
Definition IsOnCurve (x y : Z) : bool :=
  (y * y) mod P =? (x * x * x + 7) mod P.

(** [doubleJacobian], read in affine coordinates: a point with
    [y = 0], and the point at infinity, double to infinity. *)
Definition double (p : PublicKey) : PublicKey :=
  let '(x, y) := p in
  if y mod P =? 0 then infinity
  else
    let l := (3 * x * x * inverse (2 * y)) mod P in
    let x3 := (l * l - 2 * x) mod P in
    let y3 := (l * (x - x3) - y) mod P in
    (x3, y3).

(** [curve.Add(x1, y1, x2, y2)]. *)
Definition Add (p1 p2 : PublicKey) : PublicKey :=
  let '(x1, y1) := p1 in
  let '(x2, y2) := p2 in
  if (x1 =? 0) && (y1 =? 0) then p2
  else if (x2 =? 0) && (y2 =? 0) then p1
  else if x1 mod P =? x2 mod P then
    if y1 mod P =? y2 mod P then double p1 else infinity
  else
    let l := ((y2 - y1) * inverse (x2 - x1)) mod P in
    let x3 := (l * l - x1 - x2) mod P in
    let y3 := (l * (x1 - x3) - y1) mod P in
    (x3, y3).

(** [k] times the point, by double and add over the bits of [k]. *)
Fixpoint mul_pos (k : positive) (p : PublicKey) : PublicKey :=
  match k with
  | xH => p
  | xO k' => let q := mul_pos k' p in Add q q
  | xI k' => let q := mul_pos k' p in Add p (Add q q)
  end.

Definition mul (k : Z) (p : PublicKey) : PublicKey :=
  match k with
  | Zpos k' => mul_pos k' p
  | _ => infinity
  end.

(** [curve.moduloReduce(k)]: a scalar longer than the curve's byte
    size is reduced modulo the group order. *)
Definition moduloReduce (k : list byte) : list byte :=
  if (byteSize <? length k)%nat
  then big.Bytes (big.SetBytes k mod N)
  else k.

(** [curve.ScalarMult(Bx, By, k)]. *)
Definition ScalarMult (Bp : PublicKey) (k : list byte) : PublicKey :=
  mul (big.SetBytes (moduloReduce k)) Bp.

(** [curve.ScalarBaseMult(k)]. *)
Definition ScalarBaseMult (k : list byte) : PublicKey :=
  mul (big.SetBytes (moduloReduce k)) (Curve.Gx curve, Curve.Gy curve).

(** [btcec.PrivKeyFromBytes(curve, pk)]: the private scalar and the
    public key; no range check is made. *)
Definition PrivKeyFromBytes (pk : list byte) : Z * PublicKey :=
  (big.SetBytes pk, ScalarBaseMult pk).

(** [paddedAppend(size, dst, src)]. *)
Definition paddedAppend (size : nat) (dst src : list byte) : list byte :=
  dst ++ repeat x00 (size - length src) ++ src.

(** [p.SerializeCompressed()]. *)
Definition SerializeCompressed (p : PublicKey) : list byte :=
  let format := if isOdd (Y p)
                then Z.lor pubkeyCompressed 1
                else pubkeyCompressed in
  paddedAppend 32 [Go.byte_of_Z format] (big.Bytes (X p)).

(** [decompressPoint(curve, x, ybit)]. *)
Definition decompressPoint (x : Z) (ybit : bool) : Z + error :=
  let x3 := x * x * x + Curve.B curve in
  let y := big.Exp x3 QPlus1Div4 P in
  let y := if negb (Bool.eqb ybit (isOdd y)) then P - y else y in
  if negb (Bool.eqb ybit (isOdd y)) then inr ErrYbitOddness
  else inl y.

(** The checks that end [ParsePubKey]. *)
Definition checkPubKey (pubkey : PublicKey) : PublicKey + error :=
  if big.Cmp (X pubkey) P >=? 0 then inr ErrXTooBig
  else if big.Cmp (Y pubkey) P >=? 0 then inr ErrYTooBig
  else if negb (IsOnCurve (X pubkey) (Y pubkey)) then inr ErrNotOnCurve
  else inl pubkey.

(** [btcec.ParsePubKey(pubKeyStr, curve)]. *)
Definition ParsePubKey (pubKeyStr : list byte) : PublicKey + error :=
  match pubKeyStr with
  | [] => inr ErrPubKeyEmpty
  | b0 :: _ =>
    let ybit := Z.land (Go.byte_val b0) 1 =? 1 in
    let format := Z.land (Go.byte_val b0) 254 in
    if (length pubKeyStr =? PubKeyBytesLenUncompressed)%nat then
      if negb (format =? pubkeyUncompressed) && negb (format =? pubkeyHybrid)
      then inr (ErrInvalidMagic b0)
      else
        let x := big.SetBytes (firstn 32 (skipn 1 pubKeyStr)) in
        let y := big.SetBytes (skipn 33 pubKeyStr) in
        if (format =? pubkeyHybrid) && negb (Bool.eqb ybit (isOdd y))
        then inr ErrYbitOddness
        else checkPubKey (x, y)
    else if (length pubKeyStr =? PubKeyBytesLenCompressed)%nat then
      if negb (format =? pubkeyCompressed)
      then inr (ErrInvalidMagicCompressed b0)
      else
        let x := big.SetBytes (firstn 32 (skipn 1 pubKeyStr)) in
        match decompressPoint x ybit with
        | inr err => inr err
        | inl y => checkPubKey (x, y)
        end
    else inr (ErrInvalidLength (length pubKeyStr))
  end.

End WithCurve.

End btcec.

(* ================================================================== *)
(** ** The oracle package [dlcoracle] *)

Module dlcoracle.

Import btcec.

Definition bigZero : Z := 0.

(** [GenerateNumericMessage(value uint64) []byte]. *)
Definition GenerateNumericMessage (value : Z) : Go.slice :=
  let buf := [] in
  let buf := binary.Write buf 0 in
  let buf := binary.Write buf 0 in
  let buf := binary.Write buf 0 in
  let buf := binary.Write buf value in
  bytes.Buffer_Bytes buf.

Section WithReader.

(** [crypto/rand.Read(b)] fills [b] from the system's random source
    and returns an error when it could not fill it; on an error the
    bytes read so far stay in [b].  The source is outside the package:
    [rand_Read n] is what one call that asks for [n] bytes yields, the
    bytes read and the error, in the reader's own error type [E]. *)
Variable E : Type.
Variable rand_Read : nat -> list byte * option E.

(** [GenerateOneTimeSigningKey() ([32]byte, error)]. *)
Definition GenerateOneTimeSigningKey : list byte * option E :=
  let privKey := Go.zeroed 32 in
  let '(got, err) := rand_Read (length privKey) in
  let privKey := Go.copy privKey got in
  match err with
  | Some err => (privKey, Some err)
  | None => (privKey, None)
  end.

End WithReader.

Section WithCurve.

(** [curve] stands for the hardcoded [btcec.S256()] and [HashB] for
    [chainhash.HashB]. *)
Variable curve : Curve.params.
Variable HashB : list byte -> list byte.

(** [PublicKeyFromPrivateKey(privateKey [32]byte) [33]byte]. *)
Definition PublicKeyFromPrivateKey (privateKey : list byte) : list byte :=
  let pubKey := Go.zeroed 33 in
  let '(_, pk) := PrivKeyFromBytes curve privateKey in
  Go.copy pubKey (SerializeCompressed pk).

(** [ComputeSignaturePubKey(oraclePubA, oraclePubR [33]byte,
    message []byte) ([33]byte, error)].  The result is the pair the
    function returns, and the backing array of [message] as the
    call leaves it. *)
Definition ComputeSignaturePubKey
    (oraclePubA oraclePubR : list byte) (message : Go.slice)
  : (list byte * option error) * list byte :=
  let returnValue := Go.zeroed 33 in
  match ParsePubKey curve oraclePubA with
  | inr err => ((returnValue, Some err), Go.arr message)
  | inl A =>
    match ParsePubKey curve oraclePubR with
    | inr err => ((returnValue, Some err), Go.arr message)
    | inl R =>
      let '(hashInput, mem) := Go.append message (big.Bytes (X R)) in
      let e := HashB (Go.contents hashInput) in
      let bigE := big.SetBytes e in
      if big.Cmp bigE (Curve.N curve) >=? 0
      then ((returnValue, Some ErrHashPubTooBig), mem)
      else
        let A := ScalarMult curve A e in
        let A := (X A, - Y A) in
        let A := (X A, Y A mod Curve.P curve) in
        let P := Add curve A R in
        ((Go.copy returnValue (SerializeCompressed P), None), mem)
    end
  end.

(** [ComputeSignature(privKey, oneTimeSigningKey [32]byte,
    message []byte) ([32]byte, error)], with the backing array of
    [message] as the call leaves it.  The arrays are passed by
    value, so zeroing [privKey] and [oneTimeSigningKey] is not
    visible to the caller.  For a group order of at most [2^256] the
    offset [byteOffset] lies between 0 and 32, so the slice expression
    [s[byteOffset:]] is always in range. *)
Definition ComputeSignature
    (privKey oneTimeSigningKey : list byte) (message : Go.slice)
  : (list byte * option error) * list byte :=
  let empty := Go.zeroed 32 in
  let s := Go.zeroed 32 in
  let bigPriv := big.SetBytes privKey in
  let bigK := big.SetBytes oneTimeSigningKey in
  if big.Cmp bigPriv bigZero =? 0
  then ((empty, Some ErrPrivZero), Go.arr message)
  else if big.Cmp bigPriv (Curve.N curve) >=? 0
  then ((empty, Some ErrPrivOutOfBounds), Go.arr message)
  else if big.Cmp bigK bigZero =? 0
  then ((empty, Some ErrKZero), Go.arr message)
  else if big.Cmp bigK (Curve.N curve) >=? 0
  then ((empty, Some ErrKOutOfBounds), Go.arr message)
  else
    let Rx := X (ScalarBaseMult curve oneTimeSigningKey) in
    let '(hashInput, mem) := Go.append message (big.Bytes Rx) in
    let e := HashB (Go.contents hashInput) in
    let bigE := big.SetBytes e in
    if big.Cmp bigE (Curve.N curve) >=? 0
    then ((empty, Some ErrHashTooBig), mem)
    else
      let bigS := bigE * bigPriv in
      let bigS := bigK - bigS in
      let bigS := bigS mod Curve.N curve in
      if big.Cmp bigS bigZero =? 0
      then ((empty, Some ErrSigZero), mem)
      else
        let byteOffset := Z.quot (256 - big.BitLen bigS) 8 in
        let s := Go.copy_at (Z.to_nat byteOffset) s (big.Bytes bigS) in
        ((s, None), mem).

End WithCurve.

End dlcoracle.

(* ================================================================== *)
(** ** Formatting: [fmt.Sprintf] with the verb [%x] *)

Module fmt.

Definition hexdigits : list ascii :=
  ["0"%char; "1"%char; "2"%char; "3"%char; "4"%char; "5"%char; "6"%char;
   "7"%char; "8"%char; "9"%char; "a"%char; "b"%char; "c"%char; "d"%char;
   "e"%char; "f"%char].

Definition hexdigit (n : Z) : ascii := nth (Z.to_nat n) hexdigits "0"%char.

Definition newline : ascii := "010"%char.

(** [fmt.Sprintf("%x\n", a)] for a byte array [a]: two lower-case
    hexadecimal digits for each byte, then a line feed. *)
Definition Sprintf_x_nl (a : list byte) : string :=
  fold_right
    (fun b s => String (hexdigit (Go.byte_val b / 16))
                  (String (hexdigit (Go.byte_val b mod 16)) s))
    (String newline EmptyString) a.

End fmt.

(* ================================================================== *)
(** ** The test-data generator, [test-generator/generate.go]

    The program writes six files of hexadecimal lines.  A file is
    modelled by the list of the lines written to it, in order; the
    results of [os.Create] and [WriteString] are not checked by the
    program and are not modelled, nor is the progress output.  The
    random source is the sequence of the outcomes of its successive
    calls: [source i] is what call number [i] of [rand.Read] yields.  A
    run ends normally or in [panic(err)]; in both cases the files hold
    what was written until then. *)

Module generator.

Import btcec.

Record files : Type := mkFiles {
  privKeyFile : list string;
  otsKeys : list string;
  messages : list string;
  sigs : list string;
  sGsFromSig : list string;
  sGsFromMsg : list string
}.

Definition write_otsKeys (fs : files) (line : string) : files :=
  mkFiles (privKeyFile fs) (otsKeys fs ++ [line]) (messages fs) (sigs fs)
          (sGsFromSig fs) (sGsFromMsg fs).

Definition write_messages (fs : files) (line : string) : files :=
  mkFiles (privKeyFile fs) (otsKeys fs) (messages fs ++ [line]) (sigs fs)
          (sGsFromSig fs) (sGsFromMsg fs).

Definition write_sigs (fs : files) (line : string) : files :=
  mkFiles (privKeyFile fs) (otsKeys fs) (messages fs) (sigs fs ++ [line])
          (sGsFromSig fs) (sGsFromMsg fs).

Definition write_sGsFromSig (fs : files) (line : string) : files :=
  mkFiles (privKeyFile fs) (otsKeys fs) (messages fs) (sigs fs)
          (sGsFromSig fs ++ [line]) (sGsFromMsg fs).

Definition write_sGsFromMsg (fs : files) (line : string) : files :=
  mkFiles (privKeyFile fs) (otsKeys fs) (messages fs) (sigs fs)
          (sGsFromSig fs) (sGsFromMsg fs ++ [line]).

(** The bound of the loop, [100000]. *)
Definition iterations : nat := Z.to_nat 100000.

Section WithEnvironment.

Variable curve : Curve.params.
Variable HashB : list byte -> list byte.
Variable E : Type.
Variable source : nat -> list byte * option E.

(** Call number [i] of [rand.Read], asked for [n] bytes. *)
Definition rand_Read (i : nat) (n : nat) : list byte * option E :=
  let '(got, err) := source i in (firstn n got, err).

(** [var a [32]byte; rand.Read(a[:])], the error dropped. *)
Definition read_array (i : nat) : list byte :=
  let a := Go.zeroed 32 in
  Go.copy a (fst (rand_Read i (length a))).

(** The body of the loop for the index [i].  The calls number
    [1 + 2 i] and [2 + 2 i] of the random source draw the one-time key
    and the message. *)
Definition iteration (privKey pubKey : list byte) (i : nat) (fs : files)
  : files * option error :=
  let '(otsKey, _) :=
    dlcoracle.GenerateOneTimeSigningKey E (rand_Read (1 + 2 * i)) in
  let fs := write_otsKeys fs (fmt.Sprintf_x_nl otsKey) in
  let rPoint := dlcoracle.PublicKeyFromPrivateKey curve otsKey in
  let message := read_array (2 + 2 * i) in
  let fs := write_messages fs (fmt.Sprintf_x_nl message) in
  let '((sig, err), message) :=
    dlcoracle.ComputeSignature curve HashB privKey otsKey
      (Go.of_list message) in
  match err with
  | Some err => (fs, Some err)
  | None =>
    let fs := write_sigs fs (fmt.Sprintf_x_nl sig) in
    let sGFromSig := dlcoracle.PublicKeyFromPrivateKey curve sig in
    let fs := write_sGsFromSig fs (fmt.Sprintf_x_nl sGFromSig) in
    let '((sGFromMsg, err), _) :=
      dlcoracle.ComputeSignaturePubKey curve HashB pubKey rPoint
        (Go.mkSlice message 32) in
    match err with
    | Some err => (fs, Some err)
    | None => (write_sGsFromMsg fs (fmt.Sprintf_x_nl sGFromMsg), None)
    end
  end.

(** The one-time key and the message that the iteration [i] draws, and
    what its call of [ComputeSignature] returns. *)
Definition drawn_key (i : nat) : list byte :=
  fst (dlcoracle.GenerateOneTimeSigningKey E (rand_Read (1 + 2 * i))).

Definition drawn_message (i : nat) : list byte := read_array (2 + 2 * i).

Definition signing (privKey : list byte) (i : nat)
  : list byte * option error :=
  fst (dlcoracle.ComputeSignature curve HashB privKey (drawn_key i)
         (Go.of_list (drawn_message i))).

(** [for i := i0; i < i0 + n; i++ { ... }]. *)
Fixpoint loop (privKey pubKey : list byte) (n : nat) (i : nat) (fs : files)
  : files * option error :=
  match n with
  | O => (fs, None)
  | S n' =>
    match iteration privKey pubKey i fs with
    | (fs, Some err) => (fs, Some err)
    | (fs, None) => loop privKey pubKey n' (S i) fs
    end
  end.

(** [main] with the loop bound [n]. *)
Definition run (n : nat) : files * option error :=
  let privKey := read_array 0 in
  let fs := mkFiles [fmt.Sprintf_x_nl privKey] [] [] [] [] [] in
  let pubKey := dlcoracle.PublicKeyFromPrivateKey curve privKey in
  loop privKey pubKey n 0 fs.

Definition main : files * option error := run iterations.

End WithEnvironment.

End generator.


(* ================================================================== *)
(** ** What the oracle package relies on from the curve

    The package is written against secp256k1 and uses it as a group.
    That the chord and tangent rule gives a group is a fact about the
    curve, not about this package; it is stated here as a property of
    the domain parameters.  The theorems that need it take it as a
    hypothesis, and it is established by enumeration for the small
    curve [toy] below. *)

Module Laws.

Import btcec.

Definition G (c : Curve.params) : PublicKey := (Curve.Gx c, Curve.Gy c).

Definition is_infinity (p : PublicKey) : bool := (X p =? 0) && (Y p =? 0).

(** A point with reduced coordinates that satisfies the equation. *)
Definition on_curve (c : Curve.params) (p : PublicKey) : bool :=
  (0 <=? X p) && (X p <? Curve.P c) && (0 <=? Y p) && (Y p <? Curve.P c)
  && IsOnCurve c (X p) (Y p).

Definition valid (c : Curve.params) (p : PublicKey) : bool :=
  is_infinity p || on_curve c p.

(** The negation the package performs in place:
    [A.Y.Neg(A.Y); A.Y.Mod(A.Y, curve.P)]. *)
Definition negY (c : Curve.params) (p : PublicKey) : PublicKey :=
  (X p, (- Y p) mod Curve.P c).

(** [n] times a point by repeated addition: the meaning of the
    scalar multiplication. *)
Definition nmul (c : Curve.params) (n : nat) (p : PublicKey) : PublicKey :=
  Nat.iter n (Add c p) infinity.

(** The domain parameters describe a curve [y^2 = x^3 + 7] over a
    field of odd characteristic in which [(P + 1) / 4] extracts square
    roots, whose points form a group under [Add], and in which [G] has
    order [N]; coordinates and scalars fit 32 bytes. *)
Record t (c : Curve.params) : Prop := mk {
  P_odd : Z.odd (Curve.P c) = true;
  P_size : 2 < Curve.P c <= 2 ^ 256;
  N_size : 0 < Curve.N c <= 2 ^ 256;
  BitSize_256 : Curve.BitSize c = 256;
  B_seven : Curve.B c = 7;
  sqrt_ok : forall y, 0 <= y < Curve.P c ->
    let r := big.Exp (y * y) (QPlus1Div4 c) (Curve.P c) in
    r = y \/ r = Curve.P c - y;
  G_on_curve : on_curve c (G c) = true;
  Add_closed : forall p q,
    valid c p = true -> valid c q = true -> valid c (Add c p q) = true;
  Add_assoc : forall p q r,
    valid c p = true -> valid c q = true -> valid c r = true ->
    Add c p (Add c q r) = Add c (Add c p q) r;
  G_order : mul c (Curve.N c) (G c) = infinity;
  G_order_min : forall x, 0 < x < Curve.N c -> mul c x (G c) <> infinity
}.

End Laws.

(* ================================================================== *)
(** ** A small curve and a small hash

    [y^2 = x^3 + 7] over the field of 43 elements has 31 points, a
    prime number, so every point but infinity generates the group.  The
    array widths stay those of the package.  [sumHash] is a one-byte
    hash; with it the challenge is below 256. *)

Module Toy.

Import btcec.

Definition curve : Curve.params :=
  {| Curve.P := 43; Curve.N := 31; Curve.B := 7;
     Curve.Gx := 2; Curve.Gy := 12; Curve.BitSize := 256 |}.

Definition sumHash (bs : list byte) : list byte :=
  [Go.byte_of_Z (fold_left (fun acc b => acc + Go.byte_val b) bs 0)].

(** [0, 1, ..., n-1]. *)
Definition range (n : Z) : list Z := map Z.of_nat (seq 0 (Z.to_nat n)).

(** Every valid point of a curve, for a field small enough. *)
Definition points (c : Curve.params) : list PublicKey :=
  infinity ::
  filter (Laws.on_curve c) (list_prod (range (Curve.P c)) (range (Curve.P c))).

Definition check_closed (c : Curve.params) : bool :=
  let pts := points c in
  forallb (fun p => forallb (fun q => Laws.valid c (Add c p q)) pts) pts.

Definition point_eqb (p q : PublicKey) : bool :=
  (X p =? X q) && (Y p =? Y q).

Definition check_assoc (c : Curve.params) : bool :=
  let pts := points c in
  forallb (fun p => forallb (fun q => forallb (fun r =>
    point_eqb (Add c p (Add c q r)) (Add c (Add c p q) r)) pts) pts) pts.

Definition check_sqrt (c : Curve.params) : bool :=
  forallb (fun y =>
    let r := big.Exp (y * y) (QPlus1Div4 c) (Curve.P c) in
    (r =? y) || (r =? Curve.P c - y)) (range (Curve.P c)).

Definition check_order (c : Curve.params) : bool :=
  forallb (fun x => (x =? 0) || negb (Laws.is_infinity (mul c x (Laws.G c))))
          (range (Curve.N c)).

End Toy.

(* ================================================================== *)
(** ** The vocabulary of the specification

    The notions in which the properties below are stated.  They are
    written from the specification's words, to be compared with what
    the code computes. *)

Module Spec.

Import btcec.

(** The compressed encoding of a point: a prefix byte [02] or [03]
    that gives the parity of Y, then X as 32 bytes big-endian. *)
Definition compress (p : PublicKey) : list byte :=
  (if Z.odd (Y p) then x03 else x02) :: big.be_bytes 32 (X p).

(** [buf] is the compressed encoding of the point [p] of the curve. *)
Definition sec1_decodes (c : Curve.params) (buf : list byte) (p : PublicKey)
  : Prop :=
  buf = compress p /\
  0 <= X p < Curve.P c /\ 0 <= Y p < Curve.P c /\
  (Y p * Y p) mod Curve.P c = (X p * X p * X p + Curve.B c) mod Curve.P c.

(** The challenge [e = H(m || Rx)] read as a big-endian integer, where
    [Rx] is the X coordinate of [k G]; [Rx] enters the hash in its
    shortest big-endian form. *)
Definition challenge (c : Curve.params) (H : list byte -> list byte)
    (k : Z) (m : list byte) : Z :=
  big.SetBytes (H (m ++ big.Bytes (X (mul c k (Laws.G c))))).

(** The signature scalar [s = (k - e a) mod N]. *)
Definition signature_scalar (c : Curve.params) (H : list byte -> list byte)
    (a k : Z) (m : list byte) : Z :=
  (k - challenge c H k m * a) mod Curve.N c.

(** What a call yields to its caller. *)
Inductive outcome (A : Type) : Type :=
| Returns (a : A)
| Fails (e : error).

Arguments Returns {A} a.
Arguments Fails {A} e.

(** [derivePublicKey] as the package provides it.  The Go function
    [PublicKeyFromPrivateKey] has the single result [[33]byte] and no
    statement in it can panic, so every call returns. *)
Definition derivePublicKey (c : Curve.params) (scalar : list byte)
  : outcome (list byte) :=
  Returns (dlcoracle.PublicKeyFromPrivateKey c scalar).

(** Coordinates reduced modulo the field prime. *)
Definition reduced (c : Curve.params) (p : PublicKey) : Prop :=
  0 <= X p < Curve.P c /\ 0 <= Y p < Curve.P c.

End Spec.

(* ================================================================== *)
(** * Properties *)

(** ** Bytes and big integers *)

Module GoFacts.

Import Go big.

Lemma byte_val_range (b : byte) : 0 <= byte_val b < 256.
Proof.
  unfold byte_val. pose proof (Byte.to_N_bounded b). lia.
Qed.

Lemma byte_of_Z_val (b : byte) : byte_of_Z (byte_val b) = b.
Proof.
  unfold byte_of_Z.
  rewrite Z.mod_small by apply byte_val_range.
  unfold byte_val. rewrite N2Z.id, Byte.of_to_N. reflexivity.
Qed.

Lemma byte_val_of_Z (z : Z) : byte_val (byte_of_Z z) = z mod 256.
Proof.
  unfold byte_of_Z.
  assert (Hr : 0 <= z mod 256 < 256) by (apply Z.mod_pos_bound; lia).
  destruct (Byte.of_N (Z.to_N (z mod 256))) as [b|] eqn:E.
  - apply Byte.to_of_N in E. unfold byte_val. rewrite E. lia.
  - apply Byte.of_N_None_iff in E. lia.
Qed.

Lemma byte_of_Z_mod (z : Z) : byte_of_Z (z mod 256) = byte_of_Z z.
Proof.
  unfold byte_of_Z. rewrite Z.mod_mod by lia. reflexivity.
Qed.

Lemma byte_of_Z_0 : byte_of_Z 0 = x00.
Proof. reflexivity. Qed.

Lemma fold_SetBytes (l : list byte) (a : Z) :
  fold_left (fun acc b => acc * 256 + byte_val b) l a
  = a * 256 ^ Z.of_nat (length l) + SetBytes l.
Proof.
  unfold SetBytes. revert a.
  induction l as [|b l IH]; intros a.
  - simpl. lia.
  - cbn [fold_left length]. rewrite IH. rewrite (IH (0 * 256 + byte_val b)).
    rewrite Nat2Z.inj_succ, Z.pow_succ_r by lia. ring.
Qed.

Lemma SetBytes_app (l1 l2 : list byte) :
  SetBytes (l1 ++ l2) = SetBytes l1 * 256 ^ Z.of_nat (length l2) + SetBytes l2.
Proof.
  unfold SetBytes at 1. rewrite fold_left_app.
  rewrite fold_SetBytes. reflexivity.
Qed.

Lemma SetBytes_snoc (l : list byte) (b : byte) :
  SetBytes (l ++ [b]) = SetBytes l * 256 + byte_val b.
Proof.
  rewrite SetBytes_app. cbn. lia.
Qed.

Lemma SetBytes_cons (b : byte) (l : list byte) :
  SetBytes (b :: l) = byte_val b * 256 ^ Z.of_nat (length l) + SetBytes l.
Proof.
  change (b :: l) with ([b] ++ l). rewrite SetBytes_app. cbn. lia.
Qed.

Lemma SetBytes_range (l : list byte) :
  0 <= SetBytes l < 256 ^ Z.of_nat (length l).
Proof.
  induction l as [|b l IH] using rev_ind.
  - cbn. lia.
  - rewrite SetBytes_snoc, length_app. cbn [length].
    rewrite Nat2Z.inj_add, Z.pow_add_r by lia.
    pose proof (byte_val_range b). cbn. lia.
Qed.

Lemma SetBytes_zeros (n : nat) (l : list byte) :
  SetBytes (repeat x00 n ++ l) = SetBytes l.
Proof.
  induction n as [|n IH]; [reflexivity|].
  cbn [repeat app]. rewrite SetBytes_cons, IH. cbn. lia.
Qed.

Lemma length_be_bytes (n : nat) (x : Z) : length (be_bytes n x) = n.
Proof.
  revert x. induction n as [|n IH]; intros x; [reflexivity|].
  cbn [be_bytes]. rewrite length_app, IH. cbn. lia.
Qed.

Lemma SetBytes_be_bytes (n : nat) (x : Z) :
  SetBytes (be_bytes n x) = x mod 256 ^ Z.of_nat n.
Proof.
  revert x. induction n as [|n IH]; intros x.
  - cbn. rewrite Z.mod_1_r. reflexivity.
  - cbn [be_bytes]. rewrite SetBytes_snoc, IH, byte_val_of_Z.
    rewrite Nat2Z.inj_succ, Z.pow_succ_r by lia.
    rewrite Z.rem_mul_r by lia. lia.
Qed.

Lemma be_bytes_SetBytes (l : list byte) : be_bytes (length l) (SetBytes l) = l.
Proof.
  induction l as [|b l IH] using rev_ind; [reflexivity|].
  rewrite length_app, Nat.add_1_r. cbn [be_bytes].
  rewrite SetBytes_snoc.
  pose proof (byte_val_range b).
  replace ((SetBytes l * 256 + byte_val b) / 256) with (SetBytes l)
    by (rewrite Z.div_add_l by lia; rewrite Z.div_small by lia; lia).
  rewrite IH. f_equal. f_equal.
  rewrite <- byte_of_Z_mod.
  rewrite Z.add_comm, Z.mod_add by lia.
  rewrite byte_of_Z_mod. apply byte_of_Z_val.
Qed.

Lemma be_bytes_zero (n : nat) : be_bytes n 0 = repeat x00 n.
Proof.
  induction n as [|n IH]; [reflexivity|].
  cbn [be_bytes]. rewrite Zdiv_0_l, IH.
  change [byte_of_Z 0] with (repeat x00 1).
  rewrite <- repeat_app. f_equal. lia.
Qed.

Lemma be_bytes_pad (k n : nat) (x : Z) :
  0 <= x < 256 ^ Z.of_nat n ->
  be_bytes (k + n) x = repeat x00 k ++ be_bytes n x.
Proof.
  revert x. induction n as [|n IH]; intros x Hx.
  - cbn in Hx. assert (x = 0) by lia. subst x.
    rewrite Nat.add_0_r, app_nil_r. apply be_bytes_zero.
  - rewrite Nat.add_succ_r. cbn [be_bytes].
    rewrite IH, app_assoc; [reflexivity|].
    rewrite Nat2Z.inj_succ, Z.pow_succ_r in Hx by lia.
    split; [apply Z.div_pos; lia|].
    apply Z.div_lt_upper_bound; lia.
Qed.

Lemma be_bytes_inj (n : nat) (x y : Z) :
  0 <= x < 256 ^ Z.of_nat n -> 0 <= y < 256 ^ Z.of_nat n ->
  be_bytes n x = be_bytes n y -> x = y.
Proof.
  intros Hx Hy E. apply (f_equal SetBytes) in E.
  rewrite !SetBytes_be_bytes in E.
  rewrite !Z.mod_small in E by assumption. exact E.
Qed.

Lemma BitLen_log2 (x : Z) : 0 < x -> BitLen x = Z.log2 x + 1.
Proof.
  destruct x as [|p|p]; try lia. intros _.
  destruct p; cbn; lia.
Qed.

Lemma BitLen_spec (x : Z) :
  0 < x -> 2 ^ (BitLen x - 1) <= x < 2 ^ BitLen x.
Proof.
  intros Hx. rewrite BitLen_log2 by assumption.
  pose proof (Z.log2_spec x Hx).
  replace (Z.log2 x + 1 - 1) with (Z.log2 x) by lia.
  replace (Z.log2 x + 1) with (Z.succ (Z.log2 x)) by lia. assumption.
Qed.

Lemma BitLen_nonneg (x : Z) : 0 <= BitLen x.
Proof. destruct x; cbn; lia. Qed.

Lemma BitLen_le (x : Z) (n : Z) : 0 <= n -> 0 <= x < 2 ^ n -> BitLen x <= n.
Proof.
  intros Hn Hx.
  destruct (Z.eq_dec x 0) as [->|Hne]; [cbn; lia|].
  pose proof (BitLen_spec x ltac:(lia)) as [Hlo _].
  destruct (Z_le_gt_dec (BitLen x) n) as [|Hgt]; [assumption|exfalso].
  assert (2 ^ n <= 2 ^ (BitLen x - 1)) by (apply Z.pow_le_mono_r; lia).
  lia.
Qed.

Lemma length_Bytes (x : Z) : length (Bytes x) = nbytes x.
Proof. apply length_be_bytes. Qed.

Lemma nbytes_bound (x : Z) : 0 <= x -> x < 256 ^ Z.of_nat (nbytes x).
Proof.
  intros Hx. unfold nbytes.
  pose proof (BitLen_nonneg x) as Hb.
  rewrite Z2Nat.id by (apply Z.div_pos; lia).
  destruct (Z.eq_dec x 0) as [->|Hne]; [cbn; lia|].
  pose proof (BitLen_spec x ltac:(lia)) as [_ Hhi].
  change 256 with (2 ^ 8). rewrite <- Z.pow_mul_r by (try lia; apply Z.div_pos; lia).
  eapply Z.lt_le_trans; [exact Hhi|].
  apply Z.pow_le_mono_r; [lia|].
  pose proof (Z.div_mod (BitLen x + 7) 8 ltac:(lia)).
  pose proof (Z.mod_pos_bound (BitLen x + 7) 8 ltac:(lia)). lia.
Qed.

Lemma SetBytes_Bytes (x : Z) : 0 <= x -> SetBytes (Bytes x) = x.
Proof.
  intros Hx. unfold Bytes. rewrite SetBytes_be_bytes.
  rewrite Z.abs_eq by assumption.
  apply Z.mod_small. split; [assumption|].
  apply (nbytes_bound x Hx).
Qed.

Lemma nbytes_le (x : Z) (n : nat) :
  0 <= x < 256 ^ Z.of_nat n -> (nbytes x <= n)%nat.
Proof.
  intros Hx. unfold nbytes.
  assert (Hb : BitLen x <= 8 * Z.of_nat n).
  { apply BitLen_le; [lia|].
    rewrite Z.pow_mul_r by lia. exact Hx. }
  pose proof (BitLen_nonneg x).
  assert ((BitLen x + 7) / 8 <= Z.of_nat n).
  { apply Z.lt_succ_r. apply Z.div_lt_upper_bound; lia. }
  lia.
Qed.

(** Left-padding [Bytes] with zeros gives the fixed-width encoding. *)
Lemma Bytes_pad (x : Z) (n : nat) :
  0 <= x < 256 ^ Z.of_nat n ->
  repeat x00 (n - nbytes x) ++ Bytes x = be_bytes n x.
Proof.
  intros Hx. pose proof (nbytes_le x n Hx) as Hle.
  unfold Bytes. rewrite Z.abs_eq by lia. fold (nbytes x).
  rewrite <- be_bytes_pad by (split; [lia|apply nbytes_bound; lia]).
  f_equal. lia.
Qed.

Lemma Exp_pos_mod (x : Z) (y : positive) (m : Z) :
  Exp_pos (x mod m) y m = Exp_pos x y m.
Proof.
  induction y as [y IH|y IH|]; cbn [Exp_pos].
  - rewrite IH. apply Zmult_mod_idemp_l.
  - rewrite IH. reflexivity.
  - apply Zmod_mod.
Qed.

Lemma Exp_mod (x y m : Z) : Exp (x mod m) y m = Exp x y m.
Proof.
  destruct y; cbn [Exp]; auto using Exp_pos_mod.
Qed.

(** Square and multiply computes the modular power. *)
Lemma Exp_pos_spec (x : Z) (y : positive) (m : Z) :
  Exp_pos x y m = (x ^ Zpos y) mod m.
Proof.
  induction y as [y IH|y IH|]; cbn [Exp_pos].
  - rewrite IH, <- Zmult_mod, Zmult_mod_idemp_r.
    f_equal. rewrite Pos2Z.inj_xI.
    replace (2 * Z.pos y + 1) with (Z.pos y + Z.pos y + 1) by lia.
    rewrite !Z.pow_add_r, Z.pow_1_r by lia. ring.
  - rewrite IH, <- Zmult_mod. f_equal. rewrite Pos2Z.inj_xO.
    replace (2 * Z.pos y) with (Z.pos y + Z.pos y) by lia.
    rewrite Z.pow_add_r by lia. reflexivity.
  - rewrite Z.pow_1_r. reflexivity.
Qed.

Lemma Exp_spec (x y m : Z) : 0 <= y -> Exp x y m = (x ^ y) mod m.
Proof.
  intros Hy. destruct y as [|p|p]; [reflexivity| |lia].
  apply Exp_pos_spec.
Qed.

Lemma Exp_pos_range (x : Z) (y : positive) (m : Z) :
  0 < m -> 0 <= Exp_pos x y m < m.
Proof.
  intros Hm. destruct y; cbn [Exp_pos]; apply Z.mod_pos_bound; assumption.
Qed.

Lemma Cmp_ge (x y : Z) : (Cmp x y >=? 0) = (y <=? x).
Proof.
  unfold Cmp. destruct (x ?= y) eqn:E.
  - apply Z.compare_eq in E. subst. cbn. symmetry. apply Z.leb_refl.
  - rewrite Z.compare_lt_iff in E. cbn. symmetry. apply Z.leb_gt. lia.
  - rewrite Z.compare_gt_iff in E. cbn. symmetry. apply Z.leb_le. lia.
Qed.

Lemma Cmp_eq (x y : Z) : (Cmp x y =? 0) = (x =? y).
Proof.
  unfold Cmp. destruct (x ?= y) eqn:E.
  - apply Z.compare_eq in E. subst. cbn. symmetry. apply Z.eqb_refl.
  - rewrite Z.compare_lt_iff in E. cbn. symmetry. apply Z.eqb_neq. lia.
  - rewrite Z.compare_gt_iff in E. cbn. symmetry. apply Z.eqb_neq. lia.
Qed.

(** [append] never changes the elements within the length. *)
Lemma append_contents (s : slice) (xs : list byte) :
  contents (fst (append s xs)) = contents s ++ xs.
Proof.
  unfold append, contents, cap in *.
  destruct (len s + length xs <=? length (arr s))%nat eqn:E;
    cbn [fst arr len of_list].
  - apply Nat.leb_le in E.
    assert (Hwf : (len s <= length (arr s))%nat) by lia.
    rewrite app_assoc.
    rewrite firstn_app.
    rewrite length_app, length_firstn, Nat.min_l by assumption.
    rewrite Nat.sub_diag. cbn [firstn]. rewrite app_nil_r.
    apply firstn_all2. rewrite length_app, length_firstn. lia.
  - apply firstn_all.
Qed.

Lemma append_prefix (s : slice) (xs : list byte) :
  firstn (len s) (snd (append s xs)) = contents s.
Proof.
  unfold append, contents, cap in *.
  destruct (len s + length xs <=? length (arr s))%nat eqn:E; cbn [snd].
  - apply Nat.leb_le in E.
    assert (Hwf : (len s <= length (arr s))%nat) by lia.
    rewrite firstn_app, length_firstn, Nat.min_l by assumption.
    rewrite Nat.sub_diag. cbn [firstn]. rewrite app_nil_r.
    rewrite firstn_firstn, Nat.min_id. reflexivity.
  - reflexivity.
Qed.

Lemma copy_full (dst src : list byte) :
  length src = length dst -> copy dst src = src.
Proof.
  intros E. unfold copy. rewrite E, Nat.min_id.
  rewrite <- E, firstn_all, E, skipn_all, app_nil_r. reflexivity.
Qed.

End GoFacts.


(* ================================================================== *)
(** ** The algebra of the curve, from the laws of its parameters *)

Module CurveFacts.

Import btcec Laws.

Lemma is_infinity_eq (p : PublicKey) : is_infinity p = true <-> p = infinity.
Proof.
  destruct p as [x y]. unfold is_infinity, infinity, X, Y. cbn [fst snd].
  rewrite andb_true_iff, !Z.eqb_eq. split.
  - intros [-> ->]. reflexivity.
  - intros E. inversion E. auto.
Qed.

Lemma Add_inf_l (c : Curve.params) (p : PublicKey) : Add c infinity p = p.
Proof. destruct p. reflexivity. Qed.

Lemma Add_inf_r (c : Curve.params) (p : PublicKey) : Add c p infinity = p.
Proof.
  destruct p as [x y]. unfold Add, infinity.
  destruct ((x =? 0) && (y =? 0)) eqn:E.
  - apply andb_true_iff in E. rewrite !Z.eqb_eq in E. destruct E; subst.
    reflexivity.
  - reflexivity.
Qed.

Lemma valid_infinity (c : Curve.params) : valid c infinity = true.
Proof. reflexivity. Qed.

Lemma nmul_S (c : Curve.params) (n : nat) (p : PublicKey) :
  nmul c (S n) p = Add c p (nmul c n p).
Proof. reflexivity. Qed.

Lemma nmul_inf (c : Curve.params) (n : nat) : nmul c n infinity = infinity.
Proof.
  induction n as [|n IH]; [reflexivity|].
  rewrite nmul_S, IH. reflexivity.
Qed.

Lemma opp_mod (y m : Z) :
  0 <= y < m -> (- y) mod m = if y =? 0 then 0 else m - y.
Proof.
  intros Hy. destruct (y =? 0) eqn:E.
  - apply Z.eqb_eq in E. subst y. apply Z.mod_0_l. lia.
  - apply Z.eqb_neq in E. symmetry.
    apply (Z.mod_unique_pos (- y) m (-1) (m - y)); lia.
Qed.

(** A point and its mirror image add up to infinity. *)
Lemma Add_negY_range (c : Curve.params) (p : PublicKey) :
  0 < Curve.P c -> Z.odd (Curve.P c) = true ->
  0 <= Y p < Curve.P c -> Add c (negY c p) p = infinity.
Proof.
  intros HP Hodd Hy.
  destruct p as [x y]. unfold negY, X, Y in *. cbn [fst snd] in *.
  unfold Add. rewrite opp_mod by assumption.
  destruct (y =? 0) eqn:Ey.
  - apply Z.eqb_eq in Ey. subst y.
    destruct (Z.eqb_spec x 0) as [->|Hx]; cbn [andb Z.eqb]; [reflexivity|].
    rewrite !Z.eqb_refl. unfold double.
    rewrite Z.mod_0_l by lia. reflexivity.
  - apply Z.eqb_neq in Ey.
    assert (E1 : (Curve.P c - y =? 0) = false) by (apply Z.eqb_neq; lia).
    rewrite E1, !andb_false_r, Z.eqb_refl.
    rewrite !Z.mod_small by lia.
    assert (E2 : (Curve.P c - y =? y) = false).
    { apply Z.eqb_neq. intros E.
      assert (Ho : Z.odd (y + y) = true)
        by (replace (y + y) with (Curve.P c) by lia; exact Hodd).
      rewrite Z.odd_add in Ho. destruct (Z.odd y); discriminate. }
    rewrite E2. reflexivity.
Qed.

Section Group.

Variable c : Curve.params.
Hypothesis L : Laws.t c.

Lemma P_pos : 0 < Curve.P c.
Proof. pose proof (P_size c L). lia. Qed.

Lemma valid_G : valid c (G c) = true.
Proof. unfold valid. rewrite (G_on_curve c L). apply orb_true_r. Qed.

Lemma valid_nmul (n : nat) (p : PublicKey) :
  valid c p = true -> valid c (nmul c n p) = true.
Proof.
  intros Hp. induction n as [|n IH]; [reflexivity|].
  rewrite nmul_S. apply (Add_closed c L); assumption.
Qed.

Lemma nmul_add (a b : nat) (p : PublicKey) :
  valid c p = true ->
  nmul c (a + b) p = Add c (nmul c a p) (nmul c b p).
Proof.
  intros Hp. induction a as [|a IH].
  - cbn [Nat.add]. change (nmul c 0 p) with infinity.
    rewrite Add_inf_l. reflexivity.
  - cbn [Nat.add]. rewrite !nmul_S, IH.
    apply (Add_assoc c L); auto using valid_nmul.
Qed.

Lemma nmul_mul (a b : nat) (p : PublicKey) :
  valid c p = true ->
  nmul c (a * b) p = nmul c a (nmul c b p).
Proof.
  intros Hp. induction a as [|a IH]; [reflexivity|].
  cbn [Nat.mul]. rewrite nmul_add, IH by assumption. reflexivity.
Qed.

Lemma Add_self_nmul (n : nat) (p : PublicKey) :
  valid c p = true ->
  Add c (nmul c n p) (nmul c n p) = nmul c (2 * n) p.
Proof.
  intros Hp. replace (2 * n)%nat with (n + n)%nat by lia.
  rewrite nmul_add by assumption. reflexivity.
Qed.

(** Double and add computes the repeated sum. *)
Lemma mul_pos_nmul (k : positive) (p : PublicKey) :
  valid c p = true -> mul_pos c k p = nmul c (Pos.to_nat k) p.
Proof.
  intros Hp. induction k as [k IH|k IH|]; cbn [mul_pos].
  - rewrite IH, Add_self_nmul by assumption.
    rewrite <- nmul_S. f_equal. lia.
  - rewrite IH, Add_self_nmul by assumption. f_equal. lia.
  - change (Pos.to_nat 1) with 1%nat. rewrite nmul_S.
    change (nmul c 0 p) with infinity. rewrite Add_inf_r. reflexivity.
Qed.

Lemma mul_nmul (k : Z) (p : PublicKey) :
  0 <= k -> valid c p = true -> mul c k p = nmul c (Z.to_nat k) p.
Proof.
  intros Hk Hp. destruct k as [|k|k]; [reflexivity| |lia].
  cbn [mul]. rewrite mul_pos_nmul by assumption. reflexivity.
Qed.

Lemma valid_mul (k : Z) (p : PublicKey) :
  valid c p = true -> valid c (mul c k p) = true.
Proof.
  intros Hp. destruct (Z_le_gt_dec 0 k).
  - rewrite mul_nmul by assumption. apply valid_nmul; assumption.
  - destruct k; try lia. reflexivity.
Qed.

Lemma nmul_order : nmul c (Z.to_nat (Curve.N c)) (G c) = infinity.
Proof.
  pose proof (N_size c L).
  rewrite <- mul_nmul by (try apply valid_G; lia).
  apply (G_order c L).
Qed.

Lemma nmul_mod (n : nat) :
  nmul c n (G c) = nmul c (n mod Z.to_nat (Curve.N c)) (G c).
Proof.
  pose proof (N_size c L).
  assert (Hn : Z.to_nat (Curve.N c) <> 0%nat) by lia.
  rewrite (Nat.div_mod_eq n (Z.to_nat (Curve.N c))) at 1.
  rewrite nmul_add by apply valid_G.
  rewrite (Nat.mul_comm (Z.to_nat (Curve.N c))), nmul_mul by apply valid_G.
  rewrite nmul_order, nmul_inf, Add_inf_l. reflexivity.
Qed.

(** The scalar acts modulo the order of [G]. *)
Lemma mul_mod_order (k : Z) :
  0 <= k -> mul c k (G c) = mul c (k mod Curve.N c) (G c).
Proof.
  intros Hk. pose proof (N_size c L).
  assert (0 <= k mod Curve.N c < Curve.N c) by (apply Z.mod_pos_bound; lia).
  rewrite !mul_nmul by (try apply valid_G; lia).
  rewrite nmul_mod. f_equal.
  rewrite Z2Nat.inj_mod by lia. reflexivity.
Qed.

Lemma mul_mul (a b : Z) :
  0 <= a -> 0 <= b -> mul c a (mul c b (G c)) = mul c (a * b) (G c).
Proof.
  intros Ha Hb.
  rewrite (mul_nmul b) by (try apply valid_G; lia).
  rewrite !mul_nmul by (try apply valid_nmul; try apply valid_G; lia).
  rewrite <- nmul_mul by apply valid_G.
  f_equal. rewrite Z2Nat.inj_mul by lia. reflexivity.
Qed.

Lemma mul_add (a b : Z) :
  0 <= a -> 0 <= b ->
  mul c (a + b) (G c) = Add c (mul c a (G c)) (mul c b (G c)).
Proof.
  intros Ha Hb.
  rewrite !mul_nmul by (try apply valid_G; lia).
  rewrite Z2Nat.inj_add by lia. apply nmul_add, valid_G.
Qed.

Lemma valid_cases (p : PublicKey) :
  valid c p = true ->
  p = infinity \/
  (0 <= X p < Curve.P c /\ 0 <= Y p < Curve.P c /\
   IsOnCurve c (X p) (Y p) = true).
Proof.
  unfold valid, on_curve. intros H.
  apply orb_true_iff in H. destruct H as [H|H].
  - left. apply is_infinity_eq. assumption.
  - right. rewrite !andb_true_iff in H.
    rewrite !Z.leb_le, !Z.ltb_lt in H. tauto.
Qed.

Lemma valid_negY (p : PublicKey) :
  valid c p = true -> valid c (negY c p) = true.
Proof.
  intros Hp. pose proof P_pos as HP.
  destruct (valid_cases p Hp) as [->|(Hx & Hy & Hc)].
  - unfold negY, infinity, X, Y. cbn [fst snd].
    rewrite Z.mod_0_l by lia. reflexivity.
  - unfold valid, on_curve, negY, X, Y in *. cbn [fst snd].
    pose proof (Z.mod_pos_bound (- snd p) (Curve.P c) HP).
    apply orb_true_iff. right.
    rewrite !andb_true_iff, !Z.leb_le, !Z.ltb_lt.
    repeat split; try (lia).
    unfold IsOnCurve in *. rewrite <- Z.mul_mod by lia.
    rewrite Z.mul_opp_opp. exact Hc.
Qed.

Lemma Add_negY (p : PublicKey) :
  valid c p = true -> Add c (negY c p) p = infinity.
Proof.
  intros Hp. destruct (valid_cases p Hp) as [->|(Hx & Hy & Hc)].
  - pose proof P_pos. unfold negY, infinity, X, Y. cbn [fst snd].
    rewrite Z.mod_0_l by lia. reflexivity.
  - apply Add_negY_range; [apply P_pos|apply (P_odd c L)|assumption].
Qed.

(** The signature point: [k G - u G = ((k - u) mod N) G]. *)
Lemma Add_negY_mul (k u : Z) :
  0 <= k -> 0 <= u ->
  Add c (negY c (mul c u (G c))) (mul c k (G c))
  = mul c ((k - u) mod Curve.N c) (G c).
Proof.
  intros Hk Hu. pose proof (N_size c L) as HN.
  assert (Hs : 0 <= (k - u) mod Curve.N c < Curve.N c)
    by (apply Z.mod_pos_bound; lia).
  set (s := (k - u) mod Curve.N c) in *.
  assert (Ek : mul c k (G c) = Add c (mul c u (G c)) (mul c s (G c))).
  { rewrite <- mul_add by lia.
    rewrite (mul_mod_order k), (mul_mod_order (u + s)) by lia.
    f_equal. subst s.
    rewrite Z.add_mod_idemp_r by lia.
    f_equal. lia. }
  rewrite Ek.
  rewrite (Add_assoc c L)
    by auto using valid_negY, valid_mul, valid_G.
  rewrite Add_negY by auto using valid_mul, valid_G.
  apply Add_inf_l.
Qed.

End Group.

End CurveFacts.


(* ================================================================== *)
(** ** Compressed points: serialising and parsing *)

Module CodecFacts.

Import Go big btcec Laws GoFacts CurveFacts.

Lemma Exp_range (x y m : Z) : 0 < m -> 0 <= Exp x y m < m.
Proof.
  intros Hm. destruct y; cbn [Exp];
    try apply Exp_pos_range; try apply Z.mod_pos_bound; assumption.
Qed.

Lemma SerializeCompressed_eq (p : PublicKey) :
  0 <= X p < 2 ^ 256 ->
  SerializeCompressed p
  = byte_of_Z (if isOdd (Y p) then 3 else 2) :: be_bytes 32 (X p).
Proof.
  intros Hx. unfold SerializeCompressed, paddedAppend.
  rewrite length_Bytes.
  change (2 ^ 256) with (256 ^ Z.of_nat 32) in Hx.
  rewrite (Bytes_pad (X p) 32 Hx).
  destruct (isOdd (Y p)); reflexivity.
Qed.

Lemma length_SerializeCompressed (p : PublicKey) :
  0 <= X p < 2 ^ 256 -> length (SerializeCompressed p) = 33%nat.
Proof.
  intros Hx. rewrite SerializeCompressed_eq by assumption.
  cbn [length]. rewrite length_be_bytes. reflexivity.
Qed.

(** The serialisation of the point at infinity: [02] and 32 zero bytes. *)
Lemma SerializeCompressed_infinity :
  SerializeCompressed infinity = x02 :: repeat x00 32.
Proof. reflexivity. Qed.

Section Roundtrip.

Variable c : Curve.params.
Hypothesis L : Laws.t c.

Lemma decompressPoint_on_curve (x y : Z) :
  0 <= y < Curve.P c ->
  IsOnCurve c x y = true ->
  decompressPoint c x (isOdd y) = inl y.
Proof.
  intros Hy Hc.
  pose proof (P_size c L) as HP. pose proof (P_odd c L) as Hodd.
  unfold decompressPoint. rewrite (B_seven c L).
  set (r := Exp (x * x * x + 7) (QPlus1Div4 c) (Curve.P c)).
  assert (Er : r = Exp (y * y) (QPlus1Div4 c) (Curve.P c)).
  { subst r. rewrite <- Exp_mod.
    unfold IsOnCurve in Hc. apply Z.eqb_eq in Hc.
    rewrite <- Hc. apply Exp_mod. }
  assert (Hr : 0 <= r < Curve.P c) by (apply Exp_range; lia).
  destruct (sqrt_ok c L y Hy) as [E|E]; rewrite <- Er in E.
  - rewrite E, eqb_reflx. cbn [negb]. rewrite eqb_reflx. reflexivity.
  - assert (Ho : isOdd r = negb (isOdd y)).
    { rewrite E. unfold isOdd. rewrite Z.odd_sub, Hodd.
      destruct (Z.odd y); reflexivity. }
    rewrite Ho.
    replace (Bool.eqb (isOdd y) (negb (isOdd y))) with false
      by (destruct (isOdd y); reflexivity).
    cbn [negb]. replace (Curve.P c - r) with y by lia.
    rewrite eqb_reflx. reflexivity.
Qed.

(** Parsing undoes serialising on the points of the curve. *)
Lemma ParsePubKey_SerializeCompressed (p : PublicKey) :
  on_curve c p = true ->
  ParsePubKey c (SerializeCompressed p) = inl p.
Proof.
  intros Hp. pose proof (P_size c L) as HP.
  unfold on_curve in Hp.
  rewrite !andb_true_iff, !Z.leb_le, !Z.ltb_lt in Hp.
  destruct Hp as ((((Hx0 & Hx1) & Hy0) & Hy1) & Hc).
  destruct p as [x y]. unfold X, Y in *. cbn [fst snd] in *.
  rewrite SerializeCompressed_eq by (cbn [X fst]; lia).
  unfold ParsePubKey, X, Y. cbn [length fst snd]. rewrite length_be_bytes.
  change (33 =? PubKeyBytesLenUncompressed)%nat with false.
  change (33 =? PubKeyBytesLenCompressed)%nat with true.
  cbv iota.
  assert (Hfmt : Z.land (byte_val (byte_of_Z (if isOdd y then 3 else 2))) 254
                 = 2) by (destruct (isOdd y); reflexivity).
  assert (Hybit : (Z.land (byte_val (byte_of_Z (if isOdd y then 3 else 2))) 1
                   =? 1) = isOdd y) by (destruct (isOdd y); reflexivity).
  rewrite Hfmt, Hybit.
  change (negb (2 =? pubkeyCompressed)) with false. cbv iota.
  cbn [skipn]. rewrite firstn_all2 by (rewrite length_be_bytes; lia).
  rewrite SetBytes_be_bytes.
  rewrite Z.mod_small by (change (256 ^ Z.of_nat 32) with (2 ^ 256); lia).
  rewrite decompressPoint_on_curve by (assumption || lia).
  unfold checkPubKey, X, Y. cbn [fst snd]. rewrite !Cmp_ge.
  rewrite (proj2 (Z.leb_gt (Curve.P c) x)) by lia.
  rewrite (proj2 (Z.leb_gt (Curve.P c) y)) by lia.
  rewrite Hc. reflexivity.
Qed.

(** A point that [ParsePubKey] accepts is a point of the curve. *)
Lemma checkPubKey_on_curve (p q : PublicKey) :
  0 <= X p -> 0 <= Y p ->
  checkPubKey c p = inl q -> q = p /\ on_curve c p = true.
Proof.
  intros Hx Hy. unfold checkPubKey, on_curve. rewrite !Cmp_ge.
  destruct (Curve.P c <=? X p) eqn:E1; [discriminate|].
  destruct (Curve.P c <=? Y p) eqn:E2; [discriminate|].
  destruct (IsOnCurve c (X p) (Y p)) eqn:E3; [|discriminate].
  cbn [negb]. intros E. inversion E. subst q. split; [reflexivity|].
  apply Z.leb_gt in E1, E2.
  rewrite andb_true_r, !andb_true_iff, !Z.leb_le, !Z.ltb_lt. lia.
Qed.

End Roundtrip.

End CodecFacts.

(* ================================================================== *)
(** ** The small curve satisfies the laws *)

Module ToyFacts.

Import btcec Laws CurveFacts.

Lemma range_In (n x : Z) : 0 <= x < n -> In x (Toy.range n).
Proof.
  intros Hx. unfold Toy.range. apply in_map_iff.
  exists (Z.to_nat x). split; [lia|]. apply in_seq. lia.
Qed.

Lemma points_complete (c : Curve.params) (p : PublicKey) :
  valid c p = true -> In p (Toy.points c).
Proof.
  unfold valid, Toy.points. intros H.
  apply orb_true_iff in H. destruct H as [H|H].
  - left. symmetry. apply is_infinity_eq. assumption.
  - right. apply filter_In. split; [|assumption].
    unfold on_curve in H.
    rewrite !andb_true_iff, !Z.leb_le, !Z.ltb_lt in H.
    destruct p as [x y]. unfold X, Y in H. cbn [fst snd] in H.
    apply in_prod; apply range_In; lia.
Qed.

Lemma point_eqb_eq (p q : PublicKey) : Toy.point_eqb p q = true -> p = q.
Proof.
  destruct p, q. unfold Toy.point_eqb, X, Y. cbn [fst snd].
  rewrite andb_true_iff, !Z.eqb_eq. intros [-> ->]. reflexivity.
Qed.

Section Checks.

Variable c : Curve.params.

Lemma check_closed_sound :
  Toy.check_closed c = true ->
  forall p q, valid c p = true -> valid c q = true ->
              valid c (Add c p q) = true.
Proof.
  unfold Toy.check_closed. cbv zeta. intros Hc p q Hp Hq.
  rewrite forallb_forall in Hc.
  specialize (Hc p (points_complete _ _ Hp)).
  rewrite forallb_forall in Hc.
  exact (Hc q (points_complete _ _ Hq)).
Qed.

Lemma check_assoc_sound :
  Toy.check_assoc c = true ->
  forall p q r, valid c p = true -> valid c q = true -> valid c r = true ->
                Add c p (Add c q r) = Add c (Add c p q) r.
Proof.
  unfold Toy.check_assoc. cbv zeta. intros Hc p q r Hp Hq Hr.
  rewrite forallb_forall in Hc.
  specialize (Hc p (points_complete _ _ Hp)).
  rewrite forallb_forall in Hc.
  specialize (Hc q (points_complete _ _ Hq)).
  rewrite forallb_forall in Hc.
  exact (point_eqb_eq _ _ (Hc r (points_complete _ _ Hr))).
Qed.

Lemma check_sqrt_sound :
  Toy.check_sqrt c = true ->
  forall y, 0 <= y < Curve.P c ->
    let r := big.Exp (y * y) (QPlus1Div4 c) (Curve.P c) in
    r = y \/ r = Curve.P c - y.
Proof.
  unfold Toy.check_sqrt. intros Hc y Hy.
  rewrite forallb_forall in Hc.
  specialize (Hc y (range_In _ _ Hy)). cbv zeta in *.
  apply orb_true_iff in Hc. rewrite !Z.eqb_eq in Hc. exact Hc.
Qed.

Lemma check_order_sound :
  Toy.check_order c = true ->
  forall x, 0 < x < Curve.N c -> mul c x (G c) <> infinity.
Proof.
  unfold Toy.check_order. intros Hc x Hx.
  rewrite forallb_forall in Hc.
  specialize (Hc x (range_In (Curve.N c) x ltac:(lia))).
  apply orb_true_iff in Hc. destruct Hc as [Hc|Hc].
  - apply Z.eqb_eq in Hc. lia.
  - intros E. apply is_infinity_eq in E. rewrite E in Hc. discriminate.
Qed.

End Checks.

(** The laws hold on the small curve. *)
Lemma toy_laws : Laws.t Toy.curve.
Proof.
  constructor.
  - reflexivity.
  - split; [reflexivity|]. vm_compute. discriminate.
  - split; [reflexivity|]. vm_compute. discriminate.
  - reflexivity.
  - reflexivity.
  - apply check_sqrt_sound. vm_compute. reflexivity.
  - reflexivity.
  - apply check_closed_sound. vm_compute. reflexivity.
  - apply check_assoc_sound. vm_compute. reflexivity.
  - reflexivity.
  - apply check_order_sound. vm_compute. reflexivity.
Qed.

End ToyFacts.

(* ================================================================== *)
(** ** The oracle functions, equation by equation *)

Module DlcFacts.

Import Go big btcec dlcoracle Laws Spec GoFacts CurveFacts CodecFacts.

Lemma firstn_exact {A : Type} (l1 l2 : list A) :
  firstn (length l1) (l1 ++ l2) = l1.
Proof.
  rewrite firstn_app, Nat.sub_diag, firstn_all. cbn [firstn].
  apply app_nil_r.
Qed.

Lemma skipn_exact {A : Type} (l1 l2 : list A) :
  skipn (length l1) (l1 ++ l2) = l2.
Proof.
  rewrite skipn_app, Nat.sub_diag, skipn_all. reflexivity.
Qed.

Lemma zeroed_split (n k : nat) :
  (k <= n)%nat -> zeroed n = repeat x00 k ++ repeat x00 (n - k).
Proof.
  intros Hk. unfold zeroed. rewrite <- repeat_app. f_equal. lia.
Qed.

(** [copy(s[byteOffset:], bigS.Bytes())] with the offset the package
    computes pads the signature scalar to 32 bytes. *)
Lemma signature_bytes (s : Z) :
  0 <= s < 2 ^ 256 ->
  copy_at (Z.to_nat (Z.quot (256 - BitLen s) 8)) (zeroed 32) (Bytes s)
  = be_bytes 32 s.
Proof.
  intros Hs.
  assert (Hb : 0 <= BitLen s <= 256)
    by (split; [apply BitLen_nonneg|apply BitLen_le; lia]).
  assert (Hn : (nbytes s <= 32)%nat)
    by (apply nbytes_le; change (256 ^ Z.of_nat 32) with (2 ^ 256); lia).
  assert (Hoff : Z.to_nat (Z.quot (256 - BitLen s) 8) = (32 - nbytes s)%nat).
  { rewrite Z.quot_div_nonneg by lia. unfold nbytes.
    pose proof (Z.div_mod (256 - BitLen s) 8 ltac:(lia)).
    pose proof (Z.mod_pos_bound (256 - BitLen s) 8 ltac:(lia)).
    pose proof (Z.div_mod (BitLen s + 7) 8 ltac:(lia)).
    pose proof (Z.mod_pos_bound (BitLen s + 7) 8 ltac:(lia)).
    lia. }
  rewrite Hoff. unfold copy_at.
  rewrite (zeroed_split 32 (32 - nbytes s)) by lia.
  replace (32 - (32 - nbytes s))%nat with (nbytes s) by lia.
  rewrite <- (repeat_length x00 (32 - nbytes s)) at 1 3.
  rewrite firstn_exact, skipn_exact.
  rewrite copy_full by (rewrite length_Bytes, repeat_length; reflexivity).
  apply Bytes_pad. change (256 ^ Z.of_nat 32) with (2 ^ 256). lia.
Qed.

Lemma SerializeCompressed_compress (p : PublicKey) :
  0 <= X p < 2 ^ 256 -> SerializeCompressed p = compress p.
Proof.
  intros Hx. rewrite SerializeCompressed_eq by assumption.
  unfold compress, isOdd. destruct (Z.odd (Y p)); reflexivity.
Qed.

Lemma length_compress (p : PublicKey) : length (compress p) = 33%nat.
Proof.
  unfold compress. cbn [length]. rewrite length_be_bytes. reflexivity.
Qed.

Lemma PutUint64_be_bytes (v : Z) : binary.PutUint64 v = be_bytes 8 v.
Proof.
  unfold binary.PutUint64. cbn [map be_bytes app].
  rewrite !Z.shiftr_div_pow2 by lia.
  rewrite !Z.div_div by lia.
  rewrite Z.div_1_r. reflexivity.
Qed.

(** The bytes of a numeric message, and the slice that holds them. *)
Lemma GenerateNumericMessage_contents (v : Z) :
  contents (GenerateNumericMessage v) = repeat x00 24 ++ be_bytes 8 v.
Proof.
  unfold GenerateNumericMessage, binary.Write, bytes.Buffer_Bytes, contents.
  cbn [arr len]. rewrite !PutUint64_be_bytes.
  rewrite firstn_exact. reflexivity.
Qed.

Lemma GenerateNumericMessage_cap (v : Z) :
  len (GenerateNumericMessage v) = 32%nat
  /\ cap (GenerateNumericMessage v) = 64%nat.
Proof.
  unfold GenerateNumericMessage, binary.Write, bytes.Buffer_Bytes, cap.
  cbn [arr len]. rewrite !PutUint64_be_bytes. split; reflexivity.
Qed.

Section Generic.

Variable c : Curve.params.
Variable H : list byte -> list byte.

Lemma ScalarBaseMult_32 (k : list byte) :
  Curve.BitSize c = 256 -> length k = 32%nat ->
  ScalarBaseMult c k = mul c (SetBytes k) (G c).
Proof.
  intros Hb Hk. unfold ScalarBaseMult, moduloReduce, byteSize.
  rewrite Hb, Hk. reflexivity.
Qed.

(** Reduced coordinates are preserved by the group operation. *)
Lemma reduced_infinity : 0 < Curve.P c -> reduced c infinity.
Proof. unfold reduced, infinity, X, Y. cbn [fst snd]. lia. Qed.

Lemma reduced_double (p : PublicKey) :
  0 < Curve.P c -> reduced c (double c p).
Proof.
  intros HP. destruct p as [x y]. unfold double.
  destruct (y mod Curve.P c =? 0); [apply reduced_infinity; assumption|].
  unfold reduced, X, Y. cbn [fst snd].
  split; apply Z.mod_pos_bound; assumption.
Qed.

Lemma reduced_Add (p q : PublicKey) :
  0 < Curve.P c -> reduced c p -> reduced c q -> reduced c (Add c p q).
Proof.
  intros HP Hp Hq. destruct p as [x1 y1], q as [x2 y2]. unfold Add.
  destruct ((x1 =? 0) && (y1 =? 0)); [assumption|].
  destruct ((x2 =? 0) && (y2 =? 0)); [assumption|].
  destruct (x1 mod Curve.P c =? x2 mod Curve.P c).
  - destruct (y1 mod Curve.P c =? y2 mod Curve.P c).
    + apply reduced_double; assumption.
    + apply reduced_infinity; assumption.
  - unfold reduced, X, Y. cbn [fst snd].
    split; apply Z.mod_pos_bound; assumption.
Qed.

Lemma reduced_mul (k : Z) (p : PublicKey) :
  0 < Curve.P c -> reduced c p -> reduced c (mul c k p).
Proof.
  intros HP Hp. destruct k as [|k|k]; try (apply reduced_infinity; assumption).
  cbn [mul]. induction k as [k IH|k IH|]; cbn [mul_pos];
    auto using reduced_Add.
Qed.

(** [PublicKeyFromPrivateKey] is the compressed encoding of the scalar
    multiple of [G], for every 32-byte scalar. *)
Lemma PublicKeyFromPrivateKey_compress (x : list byte) :
  0 < Curve.P c <= 2 ^ 256 -> reduced c (G c) ->
  Curve.BitSize c = 256 -> length x = 32%nat ->
  PublicKeyFromPrivateKey c x = compress (mul c (SetBytes x) (G c)).
Proof.
  intros HP HG Hb Hx. unfold PublicKeyFromPrivateKey, PrivKeyFromBytes.
  rewrite ScalarBaseMult_32 by assumption.
  pose proof (reduced_mul (SetBytes x) (G c) ltac:(lia) HG) as [Hrx _].
  rewrite SerializeCompressed_compress by lia.
  apply copy_full. rewrite length_compress. reflexivity.
Qed.

(** What [ComputeSignature] returns, check by check. *)
Lemma ComputeSignature_eq (privKey oneTimeSigningKey : list byte) (m : slice) :
  Curve.BitSize c = 256 -> length oneTimeSigningKey = 32%nat ->
  let a := SetBytes privKey in
  let k := SetBytes oneTimeSigningKey in
  let e := challenge c H k (contents m) in
  let s := signature_scalar c H a k (contents m) in
  fst (ComputeSignature c H privKey oneTimeSigningKey m) =
    if a =? 0 then (zeroed 32, Some ErrPrivZero)
    else if Curve.N c <=? a then (zeroed 32, Some ErrPrivOutOfBounds)
    else if k =? 0 then (zeroed 32, Some ErrKZero)
    else if Curve.N c <=? k then (zeroed 32, Some ErrKOutOfBounds)
    else if Curve.N c <=? e then (zeroed 32, Some ErrHashTooBig)
    else if s =? 0 then (zeroed 32, Some ErrSigZero)
    else (copy_at (Z.to_nat (Z.quot (256 - BitLen s) 8))
                  (zeroed 32) (Bytes s), None).
Proof.
  intros Hb Hk a k e s. unfold ComputeSignature.
  rewrite !Cmp_eq, !Cmp_ge. fold a k. unfold bigZero.
  destruct (a =? 0); [reflexivity|].
  destruct (Curve.N c <=? a); [reflexivity|].
  destruct (k =? 0); [reflexivity|].
  destruct (Curve.N c <=? k); [reflexivity|].
  rewrite ScalarBaseMult_32 by assumption. fold k.
  pose proof (append_contents m (Bytes (X (mul c k (G c))))) as Hc.
  destruct (append m (Bytes (X (mul c k (G c))))) as [hashInput mem].
  cbn [fst] in Hc. rewrite Hc. rewrite !Cmp_eq, !Cmp_ge.
  fold (challenge c H k (contents m)). fold e.
  destruct (Curve.N c <=? e); [reflexivity|].
  replace ((k - e * a) mod Curve.N c) with s by reflexivity.
  destruct (s =? 0); reflexivity.
Qed.

(** What [ComputeSignature] leaves in the backing array of [message]. *)
Lemma ComputeSignature_memory (privKey oneTimeSigningKey : list byte)
    (m : slice) :
  let a := SetBytes privKey in
  let k := SetBytes oneTimeSigningKey in
  snd (ComputeSignature c H privKey oneTimeSigningKey m) =
    if (a =? 0) || (Curve.N c <=? a) || (k =? 0) || (Curve.N c <=? k)
    then arr m
    else snd (append m (Bytes (X (ScalarBaseMult c oneTimeSigningKey)))).
Proof.
  intros a k. unfold ComputeSignature.
  rewrite !Cmp_eq, !Cmp_ge. fold a k. unfold bigZero.
  destruct (a =? 0); [reflexivity|].
  destruct (Curve.N c <=? a); [reflexivity|].
  destruct (k =? 0); [reflexivity|].
  destruct (Curve.N c <=? k); [reflexivity|].
  cbn [orb].
  destruct (append m (Bytes (X (ScalarBaseMult c oneTimeSigningKey))))
    as [hashInput mem].
  cbn [snd]. rewrite !Cmp_ge.
  destruct (Curve.N c <=? _); [reflexivity|].
  rewrite Cmp_eq. destruct (_ =? 0); reflexivity.
Qed.

(** What [ComputeSignaturePubKey] returns, check by check. *)
Lemma ComputeSignaturePubKey_eq (oraclePubA oraclePubR : list byte)
    (m : slice) :
  fst (ComputeSignaturePubKey c H oraclePubA oraclePubR m) =
    match ParsePubKey c oraclePubA with
    | inr err => (zeroed 33, Some err)
    | inl A =>
      match ParsePubKey c oraclePubR with
      | inr err => (zeroed 33, Some err)
      | inl R =>
        let e := H (contents m ++ Bytes (X R)) in
        if Curve.N c <=? SetBytes e
        then (zeroed 33, Some ErrHashPubTooBig)
        else (copy (zeroed 33)
                (SerializeCompressed
                   (Add c (negY c (ScalarMult c A e)) R)), None)
      end
    end.
Proof.
  unfold ComputeSignaturePubKey.
  destruct (ParsePubKey c oraclePubA) as [A|err]; [|reflexivity].
  destruct (ParsePubKey c oraclePubR) as [R|err]; [|reflexivity].
  pose proof (append_contents m (Bytes (X R))) as Hc.
  destruct (append m (Bytes (X R))) as [hashInput mem].
  cbn [fst] in Hc. rewrite Hc. rewrite Cmp_ge. cbv zeta.
  destruct (Curve.N c <=? _); reflexivity.
Qed.

Lemma ComputeSignaturePubKey_memory (oraclePubA oraclePubR : list byte)
    (m : slice) :
  snd (ComputeSignaturePubKey c H oraclePubA oraclePubR m) =
    match ParsePubKey c oraclePubA, ParsePubKey c oraclePubR with
    | inl _, inl R => snd (append m (Bytes (X R)))
    | _, _ => arr m
    end.
Proof.
  unfold ComputeSignaturePubKey.
  destruct (ParsePubKey c oraclePubA) as [A|err]; [|reflexivity].
  destruct (ParsePubKey c oraclePubR) as [R|err]; [|reflexivity].
  destruct (append m (Bytes (X R))) as [hashInput mem].
  cbn [snd]. rewrite Cmp_ge.
  destruct (Curve.N c <=? _); reflexivity.
Qed.

End Generic.

End DlcFacts.

(* ================================================================== *)
(** ** Signing and anticipating on a curve that satisfies the laws *)

Module SignFacts.

Import Go big btcec dlcoracle Laws Spec GoFacts CurveFacts CodecFacts DlcFacts.

(** A challenge below the group order is used as it is. *)
Lemma ScalarMult_challenge (c : Curve.params) (p : PublicKey) (e : list byte) :
  0 <= SetBytes e < Curve.N c ->
  ScalarMult c p e = mul c (SetBytes e) p.
Proof.
  intros He. unfold ScalarMult, moduloReduce.
  destruct (byteSize c <? length e)%nat; [|reflexivity].
  rewrite Z.mod_small by assumption.
  rewrite SetBytes_Bytes by lia. reflexivity.
Qed.

Section WithLaws.

Variable c : Curve.params.
Variable H : list byte -> list byte.
Hypothesis L : Laws.t c.

Lemma laws_reduced_G : reduced c (G c).
Proof.
  pose proof (G_on_curve c L) as HG. unfold on_curve in HG.
  rewrite !andb_true_iff, !Z.leb_le, !Z.ltb_lt in HG.
  unfold reduced. tauto.
Qed.

Lemma laws_P : 0 < Curve.P c <= 2 ^ 256.
Proof. pose proof (P_size c L). lia. Qed.

Lemma on_curve_mul (x : Z) :
  0 < x < Curve.N c -> on_curve c (mul c x (G c)) = true.
Proof.
  intros Hx.
  pose proof (valid_mul c L x (G c) (valid_G c L)) as Hv.
  unfold valid in Hv. apply orb_true_iff in Hv. destruct Hv as [Hv|Hv].
  - apply is_infinity_eq in Hv. destruct (G_order_min c L x Hx Hv).
  - assumption.
Qed.

Lemma PublicKeyFromPrivateKey_laws (x : list byte) :
  length x = 32%nat ->
  PublicKeyFromPrivateKey c x = compress (mul c (SetBytes x) (G c)).
Proof.
  intros Hx. apply PublicKeyFromPrivateKey_compress.
  - apply laws_P.
  - apply laws_reduced_G.
  - apply (BitSize_256 c L).
  - assumption.
Qed.

Lemma X_mul_bound (x : Z) : 0 <= X (mul c x (G c)) < 2 ^ 256.
Proof.
  pose proof laws_P.
  pose proof (reduced_mul c x (G c) ltac:(lia) laws_reduced_G) as [Hx _].
  lia.
Qed.

(** The public key of a scalar in range parses back to its point. *)
Lemma ParsePubKey_PublicKeyFromPrivateKey (x : list byte) :
  length x = 32%nat -> 0 < SetBytes x < Curve.N c ->
  ParsePubKey c (PublicKeyFromPrivateKey c x)
  = inl (mul c (SetBytes x) (G c)).
Proof.
  intros Hl Hx. rewrite PublicKeyFromPrivateKey_laws by assumption.
  rewrite <- SerializeCompressed_compress by apply X_mul_bound.
  apply (ParsePubKey_SerializeCompressed c L).
  apply on_curve_mul. assumption.
Qed.

(** [R - e A] for [A = a G], [R = k G]. *)
Lemma anticipated_point (a k : Z) (e : list byte) :
  0 <= a -> 0 <= k -> 0 <= SetBytes e < Curve.N c ->
  Add c (negY c (ScalarMult c (mul c a (G c)) e)) (mul c k (G c))
  = mul c ((k - SetBytes e * a) mod Curve.N c) (G c).
Proof.
  intros Ha Hk He.
  rewrite ScalarMult_challenge by assumption.
  rewrite (mul_mul c L) by lia.
  apply (Add_negY_mul c L); [assumption|]. apply Z.mul_nonneg_nonneg; lia.
Qed.

End WithLaws.

End SignFacts.

(* ================================================================== *)
(** ** What [ParsePubKey] accepts and rejects *)

Module ParseFacts.

Import Go big btcec dlcoracle Laws Spec GoFacts CurveFacts CodecFacts DlcFacts.

(** A byte whose bits above the lowest read [02] is [02] or [03]. *)
Lemma prefix_byte (b0 : byte) :
  Z.land (byte_val b0) 254 = 2 ->
  b0 = if Z.land (byte_val b0) 1 =? 1 then x03 else x02.
Proof.
  destruct b0; vm_compute; intros E; try discriminate E; reflexivity.
Qed.

Section Parse.

Variable c : Curve.params.

Lemma decompressPoint_inl (x y : Z) (ybit : bool) :
  0 < Curve.P c ->
  decompressPoint c x ybit = inl y -> 0 <= y /\ isOdd y = ybit.
Proof.
  intros HP. unfold decompressPoint.
  set (r := Exp (x * x * x + Curve.B c) (QPlus1Div4 c) (Curve.P c)).
  assert (Hr : 0 <= r < Curve.P c) by (apply Exp_range; assumption).
  set (y' := if negb (Bool.eqb ybit (isOdd r)) then Curve.P c - r else r).
  assert (Hy' : 0 <= y') by (subst y'; destruct (negb _); lia).
  destruct (Bool.eqb ybit (isOdd y')) eqn:E; cbn [negb]; [|discriminate].
  intros Hy. inversion Hy. subst y.
  split; [assumption|]. symmetry. apply eqb_prop. assumption.
Qed.

Lemma decompressPoint_inr (x : Z) (ybit : bool) (err : error) :
  decompressPoint c x ybit = inr err -> err = ErrYbitOddness.
Proof.
  unfold decompressPoint.
  destruct (negb (Bool.eqb ybit (isOdd _))); [|discriminate].
  intros E. inversion E. reflexivity.
Qed.

Lemma checkPubKey_inr (p : PublicKey) (err : error) :
  checkPubKey c p = inr err -> kind_of err = InvalidPublicKey.
Proof.
  unfold checkPubKey.
  destruct (Cmp (X p) (Curve.P c) >=? 0); [intros E; inversion E; reflexivity|].
  destruct (Cmp (Y p) (Curve.P c) >=? 0); [intros E; inversion E; reflexivity|].
  destruct (negb (IsOnCurve c (X p) (Y p))); [|discriminate].
  intros E. inversion E. reflexivity.
Qed.

(** Every error of [ParsePubKey] is an invalid public key. *)
Lemma ParsePubKey_inr (buf : list byte) (err : error) :
  ParsePubKey c buf = inr err -> kind_of err = InvalidPublicKey.
Proof.
  unfold ParsePubKey. destruct buf as [|b0 rest].
  - intros E. inversion E. reflexivity.
  - destruct (length (b0 :: rest) =? PubKeyBytesLenUncompressed)%nat.
    + destruct (negb (_ =? pubkeyUncompressed) && negb (_ =? pubkeyHybrid));
        [intros E; inversion E; reflexivity|].
      destruct ((_ =? pubkeyHybrid) && negb (Bool.eqb _ _));
        [intros E; inversion E; reflexivity|].
      apply checkPubKey_inr.
    + destruct (length (b0 :: rest) =? PubKeyBytesLenCompressed)%nat;
        [|intros E; inversion E; reflexivity].
      destruct (negb (_ =? pubkeyCompressed));
        [intros E; inversion E; reflexivity|].
      destruct (decompressPoint c _ _) as [y|e] eqn:Ed.
      * apply checkPubKey_inr.
      * apply decompressPoint_inr in Ed. subst e.
        intros E. inversion E. reflexivity.
Qed.

(** A point that [ParsePubKey] yields is on the curve. *)
Lemma ParsePubKey_on_curve (buf : list byte) (p : PublicKey) :
  0 < Curve.P c -> ParsePubKey c buf = inl p -> on_curve c p = true.
Proof.
  intros HP. unfold ParsePubKey. destruct buf as [|b0 rest]; [discriminate|].
  destruct (length (b0 :: rest) =? PubKeyBytesLenUncompressed)%nat.
  - destruct (negb (_ =? pubkeyUncompressed) && negb (_ =? pubkeyHybrid));
      [discriminate|].
    destruct ((_ =? pubkeyHybrid) && negb (Bool.eqb _ _)); [discriminate|].
    intros E. apply checkPubKey_on_curve in E.
    + destruct E as [-> E]. exact E.
    + apply SetBytes_range.
    + apply SetBytes_range.
  - destruct (length (b0 :: rest) =? PubKeyBytesLenCompressed)%nat;
      [|discriminate].
    destruct (negb (_ =? pubkeyCompressed)); [discriminate|].
    destruct (decompressPoint c _ _) as [y|e] eqn:Ed; [|discriminate].
    apply decompressPoint_inl in Ed; [|assumption].
    intros E. apply checkPubKey_on_curve in E.
    + destruct E as [-> E]. exact E.
    + apply SetBytes_range.
    + apply Ed.
Qed.

(** On a 33-byte buffer [ParsePubKey] yields only the point that the
    buffer is the compressed encoding of. *)
Lemma ParsePubKey_sound (buf : list byte) (p : PublicKey) :
  0 < Curve.P c -> Curve.B c = 7 -> length buf = 33%nat ->
  ParsePubKey c buf = inl p -> sec1_decodes c buf p.
Proof.
  intros HP HB Hl Hp.
  pose proof (ParsePubKey_on_curve buf p HP Hp) as Hon.
  unfold on_curve in Hon.
  rewrite !andb_true_iff, !Z.leb_le, !Z.ltb_lt in Hon.
  destruct Hon as ((((Hx0 & Hx1) & Hy0) & Hy1) & Hc).
  unfold sec1_decodes. rewrite HB.
  unfold IsOnCurve in Hc. apply Z.eqb_eq in Hc.
  split; [|repeat split; assumption].
  unfold ParsePubKey in Hp. destruct buf as [|b0 rest]; [discriminate|].
  rewrite Hl in Hp.
  change (33 =? PubKeyBytesLenUncompressed)%nat with false in Hp.
  change (33 =? PubKeyBytesLenCompressed)%nat with true in Hp.
  cbv iota in Hp.
  destruct (Z.eqb_spec (Z.land (byte_val b0) 254) pubkeyCompressed)
    as [Hf|Hf]; [|discriminate].
  cbn [negb skipn] in Hp.
  cbn [length] in Hl.
  assert (Hr : length rest = 32%nat) by lia.
  rewrite firstn_all2 in Hp by lia.
  destruct (decompressPoint c _ _) as [y|e] eqn:Ed; [|discriminate].
  apply decompressPoint_inl in Ed; [|assumption]. destruct Ed as [_ Hodd].
  unfold checkPubKey, X, Y in Hp. cbn [fst snd] in Hp.
  destruct (Cmp _ _ >=? 0); [discriminate|].
  destruct (Cmp _ _ >=? 0); [discriminate|].
  destruct (negb _); [discriminate|].
  inversion Hp. subst p. unfold compress, X, Y. cbn [fst snd].
  rewrite <- Hr, be_bytes_SetBytes. f_equal.
  rewrite (prefix_byte b0 Hf). unfold isOdd in Hodd. rewrite Hodd.
  reflexivity.
Qed.

End Parse.

End ParseFacts.

(* ================================================================== *)
(** ** secp256k1: the model against published values *)

Module S256Facts.

Import Go big btcec Laws Spec.

(** The oracle public key that the tutorial of the package prints,
    [0323 8220 ... e7b3], parses to a point of the curve with an odd Y
    coordinate, and that point serialises back to the same 33 bytes. *)
Example tutorial_oracle_key :
  let key :=
    x03 :: be_bytes 32
      0x2382208af6ab43b8d21e71edf73ec8f37070a9b4fc4547f406bcd744b4e8e7b3 in
  let A :=
    (0x2382208af6ab43b8d21e71edf73ec8f37070a9b4fc4547f406bcd744b4e8e7b3,
     0x75b13d523771430a1e26dcd000083c9aaa970e13a8e159adfef993093d1e03d9) in
  ParsePubKey S256 key = inl A
  /\ on_curve S256 A = true
  /\ SerializeCompressed A = key.
Proof. vm_compute. repeat split. Qed.

End S256Facts.

(* ================================================================== *)
(** * The properties of the oracle package *)

Import Go big btcec dlcoracle Laws Spec.
Import GoFacts CurveFacts CodecFacts DlcFacts SignFacts ParseFacts.



(** C2.  When [ComputeSignature] succeeds on scalars [a], [k] in
    (0, N), the signature is the 32-byte big-endian, zero-left-padded
    encoding of [s = (k - e a) mod N], where [e] is the hash of the
    message followed by [Rx], read as a big-endian integer, and [Rx] is
    the X coordinate of [k G]. *)
Theorem ComputeSignature_value
    (c : Curve.params) (H : list byte -> list byte)
    (privKey oneTimeSigningKey : list byte) (message : slice)
    (sig : list byte) :
  0 < Curve.N c <= 2 ^ 256 -> Curve.BitSize c = 256 ->
  length privKey = 32%nat -> length oneTimeSigningKey = 32%nat ->
  0 < SetBytes privKey < Curve.N c ->
  0 < SetBytes oneTimeSigningKey < Curve.N c ->
  fst (ComputeSignature c H privKey oneTimeSigningKey message) = (sig, None) ->
  let a := SetBytes privKey in
  let k := SetBytes oneTimeSigningKey in
  let Rx := X (mul c k (G c)) in
  let e := SetBytes (H (contents message ++ Bytes Rx)) in
  let s := (k - e * a) mod Curve.N c in
  sig = be_bytes 32 s /\ length sig = 32%nat /\ SetBytes sig = s.
Proof.
  intros HN Hb Hla Hlk Ha Hk Hsig a k Rx e s.
  rewrite (ComputeSignature_eq c H) in Hsig by assumption.
  cbv zeta in Hsig. fold a k in Hsig.
  change (challenge c H k (contents message)) with e in Hsig.
  change (signature_scalar c H a k (contents message)) with s in Hsig.
  destruct (a =? 0); [discriminate|].
  destruct (Curve.N c <=? a); [discriminate|].
  destruct (k =? 0); [discriminate|].
  destruct (Curve.N c <=? k); [discriminate|].
  destruct (Curve.N c <=? e); [discriminate|].
  destruct (s =? 0); [discriminate|].
  assert (Hs : 0 <= s < Curve.N c) by (apply Z.mod_pos_bound; lia).
  rewrite signature_bytes in Hsig by lia.
  assert (E : sig = be_bytes 32 s) by congruence.
  subst sig. split; [reflexivity|]. split; [apply length_be_bytes|].
  rewrite SetBytes_be_bytes. apply Z.mod_small.
  change (256 ^ Z.of_nat 32) with (2 ^ 256). lia.
Qed.

(** Witness of C2 on secp256k1 with the one-byte hash: private scalar 2
    and nonce 1, so that [R = G]. *)
Lemma ComputeSignature_value_witness :
  let privKey := be_bytes 32 2 in
  let oneTime := be_bytes 32 1 in
  let message := GenerateNumericMessage 18081 in
  let sig := fst (fst (ComputeSignature S256 Toy.sumHash privKey oneTime
                         message)) in
  fst (ComputeSignature S256 Toy.sumHash privKey oneTime message)
  = (sig, None)
  /\ sig = be_bytes 32
       ((1 - SetBytes (Toy.sumHash (contents message
                                     ++ Bytes (Curve.Gx S256))) * 2)
        mod Curve.N S256)
  /\ length sig = 32%nat.
Proof.
  cbv zeta.
  assert (Hrun :
    fst (ComputeSignature S256 Toy.sumHash (be_bytes 32 2) (be_bytes 32 1)
           (GenerateNumericMessage 18081))
    = (fst (fst (ComputeSignature S256 Toy.sumHash (be_bytes 32 2)
                   (be_bytes 32 1)
                   (GenerateNumericMessage 18081))), None))
    by (vm_compute; reflexivity).
  split; [exact Hrun|].
  pose proof (ComputeSignature_value S256 Toy.sumHash
                (be_bytes 32 2) (be_bytes 32 1)
                (GenerateNumericMessage 18081) _
                ltac:(vm_compute; split; [reflexivity|discriminate])
                eq_refl eq_refl eq_refl
                ltac:(vm_compute; split; reflexivity)
                ltac:(vm_compute; split; reflexivity)
                Hrun) as W.
  cbv zeta in W. destruct W as (W1 & W2 & _).
  split; [exact W1|exact W2].
Defined.

(** C3.  [ComputeSignature] returns an error exactly when a scalar is
    out of range ([a = 0], [a >= N], [k = 0] or [k >= N]), or the
    challenge [e] is at least [N], or the scalar [s = (k - e a) mod N]
    is 0; the error is of kind [InvalidScalar], [InvalidChallenge] and
    [InvalidSignature] respectively, the checks being made in this
    order; otherwise the call succeeds. *)
Theorem ComputeSignature_error_iff
    (c : Curve.params) (H : list byte -> list byte)
    (privKey oneTimeSigningKey : list byte) (message : slice) :
  Curve.BitSize c = 256 -> length oneTimeSigningKey = 32%nat ->
  let a := SetBytes privKey in
  let k := SetBytes oneTimeSigningKey in
  let Rx := X (mul c k (G c)) in
  let e := SetBytes (H (contents message ++ Bytes Rx)) in
  let s := (k - e * a) mod Curve.N c in
  let err := snd (fst (ComputeSignature c H privKey oneTimeSigningKey
                         message)) in
  let bad_scalar := a = 0 \/ Curve.N c <= a \/ k = 0 \/ Curve.N c <= k in
  (err <> None <-> bad_scalar \/ Curve.N c <= e \/ s = 0)
  /\ (bad_scalar -> option_map kind_of err = Some InvalidScalar)
  /\ (~ bad_scalar -> Curve.N c <= e ->
      option_map kind_of err = Some InvalidChallenge)
  /\ (~ bad_scalar -> e < Curve.N c -> s = 0 ->
      option_map kind_of err = Some InvalidSignature)
  /\ (~ bad_scalar -> e < Curve.N c -> s <> 0 -> err = None).
Proof.
  intros Hb Hlk a k Rx e s err bad_scalar. subst err.
  rewrite (ComputeSignature_eq c H) by assumption.
  cbv zeta. fold a k.
  change (challenge c H k (contents message)) with e.
  change (signature_scalar c H a k (contents message)) with s.
  subst bad_scalar.
  destruct (Z.eqb_spec a 0) as [Ea|Ea];
    [cbn; repeat split; intros; try tauto; try discriminate; auto|].
  destruct (Z.leb_spec (Curve.N c) a) as [Ha|Ha];
    [cbn; repeat split; intros; try tauto; try discriminate; auto|].
  destruct (Z.eqb_spec k 0) as [Ek|Ek];
    [cbn; repeat split; intros; try tauto; try discriminate; auto|].
  destruct (Z.leb_spec (Curve.N c) k) as [Hk|Hk];
    [cbn; repeat split; intros; try tauto; try discriminate; auto|].
  assert (Hok : ~ (a = 0 \/ Curve.N c <= a \/ k = 0 \/ Curve.N c <= k))
    by lia.
  destruct (Z.leb_spec (Curve.N c) e) as [He|He];
    [cbn; repeat split; intros; try tauto; try discriminate; try lia; auto|].
  destruct (Z.eqb_spec s 0) as [Es|Es];
    cbn; repeat split; intros; try tauto; try discriminate; try lia; auto.
Qed.

(** Witness of C3 on secp256k1: an all-zero private scalar, a nonce of
    1. *)
Lemma ComputeSignature_error_iff_witness :
  (Curve.BitSize S256 = 256 /\ length (be_bytes 32 1) = 32%nat)
  /\ SetBytes (zeroed 32) = 0
  /\ snd (fst (ComputeSignature S256 Toy.sumHash (zeroed 32) (be_bytes 32 1)
                 (of_list [x01])))
     = Some ErrPrivZero
  /\ option_map kind_of
       (snd (fst (ComputeSignature S256 Toy.sumHash (zeroed 32)
                    (be_bytes 32 1) (of_list [x01]))))
     = Some InvalidScalar.
Proof.
  split; [split; reflexivity|]. split; [reflexivity|].
  split; [vm_compute; reflexivity|].
  refine (proj1 (proj2 (ComputeSignature_error_iff S256 Toy.sumHash
                          (zeroed 32) (be_bytes 32 1) (of_list [x01])
                          eq_refl eq_refl)) _).
  left. reflexivity.
Defined.

(** C4, as stated, fails on secp256k1: on the all-zero scalar the call
    does not fail; it returns the byte [02] followed by 32 zero bytes,
    the encoding of the point at infinity. *)
Lemma derivePublicKey_no_InvalidScalar :
  SetBytes (zeroed 32) = 0
  /\ derivePublicKey S256 (zeroed 32) = Returns (x02 :: repeat x00 32)
  /\ ~ (forall scalar,
          length scalar = 32%nat ->
          SetBytes scalar = 0 \/ Curve.N S256 <= SetBytes scalar ->
          exists e, derivePublicKey S256 scalar = Fails e
                    /\ kind_of e = InvalidScalar).
Proof.
  split; [reflexivity|]. split; [reflexivity|].
  intros Hc.
  destruct (Hc (zeroed 32) eq_refl (or_introl eq_refl)) as (e & He & _).
  discriminate He.
Qed.

(** C4, amended.  [PublicKeyFromPrivateKey] has no error result and
    returns for every 32-byte scalar, in range or not, the 33-byte
    compressed encoding of scalar times [G]; the same scalar always
    gives the same encoding. *)
Theorem derivePublicKey_returns
    (c : Curve.params) (scalar : list byte) :
  0 < Curve.P c <= 2 ^ 256 -> reduced c (G c) -> Curve.BitSize c = 256 ->
  length scalar = 32%nat ->
  derivePublicKey c scalar
  = Returns (compress (mul c (SetBytes scalar) (G c)))
  /\ length (PublicKeyFromPrivateKey c scalar) = 33%nat
  /\ (forall e, derivePublicKey c scalar <> Fails e).
Proof.
  intros HP HG Hb Hl. unfold derivePublicKey.
  rewrite PublicKeyFromPrivateKey_compress by assumption.
  split; [reflexivity|]. split; [apply length_compress|].
  intros e. discriminate.
Qed.

(** Witness of the amended C4 on secp256k1: the scalar 1, whose public
    key is the encoding of [G]. *)
Lemma derivePublicKey_returns_witness :
  (0 < SetBytes (be_bytes 32 1) < Curve.N S256)
  /\ derivePublicKey S256 (be_bytes 32 1) = Returns (compress (G S256))
  /\ length (PublicKeyFromPrivateKey S256 (be_bytes 32 1)) = 33%nat.
Proof.
  split; [vm_compute; split; reflexivity|].
  pose proof (derivePublicKey_returns S256 (be_bytes 32 1)
                ltac:(vm_compute; split; [reflexivity|discriminate])
                ltac:(vm_compute; repeat split; discriminate)
                eq_refl eq_refl) as (W1 & W2 & _).
  split; [exact W1|exact W2].
Defined.

(** C5.  For a 64-bit value, [GenerateNumericMessage] returns 32 bytes:
    24 zero bytes, then the value as 8 bytes big-endian.  The two
    boundary values are as stated, and the function is injective on
    64-bit values. *)
Theorem GenerateNumericMessage_encoding (v w : Z) :
  0 <= v < 2 ^ 64 -> 0 <= w < 2 ^ 64 ->
  let m := contents (GenerateNumericMessage v) in
  (len (GenerateNumericMessage v) = 32%nat
   /\ length m = 32%nat
   /\ firstn 24 m = repeat x00 24
   /\ skipn 24 m = be_bytes 8 v
   /\ SetBytes (skipn 24 m) = v)
  /\ contents (GenerateNumericMessage 0) = repeat x00 32
  /\ contents (GenerateNumericMessage 18446744073709551615)
     = repeat x00 24 ++ repeat xff 8
  /\ (contents (GenerateNumericMessage v) = contents (GenerateNumericMessage w)
      -> v = w).
Proof.
  intros Hv Hw m. subst m.
  split; [|split; [reflexivity|split; [reflexivity|]]].
  - rewrite GenerateNumericMessage_contents.
    pose proof (firstn_exact (repeat x00 24) (be_bytes 8 v)) as F.
    pose proof (skipn_exact (repeat x00 24) (be_bytes 8 v)) as S.
    rewrite repeat_length in F, S. rewrite F, S.
    rewrite length_app, repeat_length, length_be_bytes.
    repeat split.
    rewrite SetBytes_be_bytes. apply Z.mod_small.
    change (256 ^ Z.of_nat 8) with (2 ^ 64). assumption.
  - rewrite !GenerateNumericMessage_contents. intros E.
    apply app_inv_head in E.
    apply (be_bytes_inj 8); try assumption.
Qed.

(** Witness of C5: the values 18081 and 18082. *)
Lemma GenerateNumericMessage_encoding_witness :
  (0 <= 18081 < 2 ^ 64 /\ 0 <= 18082 < 2 ^ 64)
  /\ skipn 24 (contents (GenerateNumericMessage 18081)) = be_bytes 8 18081
  /\ (contents (GenerateNumericMessage 18081)
      = contents (GenerateNumericMessage 18082) -> 18081 = 18082).
Proof.
  assert (H1 : 0 <= 18081 < 2 ^ 64)
    by (vm_compute; split; [discriminate|reflexivity]).
  assert (H2 : 0 <= 18082 < 2 ^ 64)
    by (vm_compute; split; [discriminate|reflexivity]).
  split; [split; assumption|].
  pose proof (GenerateNumericMessage_encoding 18081 18082 H1 H2) as W.
  cbv zeta in W. destruct W as ((_ & _ & _ & W1 & _) & _ & _ & W2).
  split; [exact W1|exact W2].
Defined.

(** C6.  [ComputeSignaturePubKey] fails with an invalid-public-key
    error whenever one of its 33-byte buffers is not the compressed
    encoding of a point of the curve; so it does for every buffer whose
    first byte is [04].  The array returned with the error is zero. *)
Theorem ComputeSignaturePubKey_invalid_key
    (c : Curve.params) (H : list byte -> list byte)
    (oraclePubA oraclePubR : list byte) (message : slice) :
  0 < Curve.P c -> Curve.B c = 7 ->
  length oraclePubA = 33%nat -> length oraclePubR = 33%nat ->
  (~ (exists p, sec1_decodes c oraclePubA p))
  \/ (~ (exists p, sec1_decodes c oraclePubR p))
  \/ hd x00 oraclePubA = x04 \/ hd x00 oraclePubR = x04 ->
  exists err,
    fst (ComputeSignaturePubKey c H oraclePubA oraclePubR message)
    = (zeroed 33, Some err)
    /\ kind_of err = InvalidPublicKey.
Proof.
  intros HP HB HlA HlR Hbad.
  assert (H04 : forall buf, hd x00 buf = x04 ->
                            ~ (exists p, sec1_decodes c buf p)).
  { intros buf Hhd [p (E & _)]. subst buf. unfold compress in Hhd.
    cbn [hd] in Hhd. destruct (Z.odd (Y p)); discriminate. }
  assert (Hbad' : (~ (exists p, sec1_decodes c oraclePubA p))
                  \/ (~ (exists p, sec1_decodes c oraclePubR p))).
  { destruct Hbad as [Hb|[Hb|[Hb|Hb]]]; auto. }
  rewrite ComputeSignaturePubKey_eq.
  destruct (ParsePubKey c oraclePubA) as [A|errA] eqn:EA.
  - destruct (ParsePubKey c oraclePubR) as [R|errR] eqn:ER.
    + exfalso. destruct Hbad' as [Hb|Hb]; apply Hb.
      * exists A. apply ParsePubKey_sound; assumption.
      * exists R. apply ParsePubKey_sound; assumption.
    + exists errR. split; [reflexivity|].
      apply (ParsePubKey_inr c oraclePubR). assumption.
  - exists errA. split; [reflexivity|].
    apply (ParsePubKey_inr c oraclePubA). assumption.
Qed.

(** Witness of C6 on secp256k1: the generator's X coordinate under
    the prefix byte [04], as the oracle key. *)
Lemma ComputeSignaturePubKey_invalid_key_witness :
  let bad := x04 :: be_bytes 32 (Curve.Gx S256) in
  let good := compress (G S256) in
  hd x00 bad = x04
  /\ exists err,
       fst (ComputeSignaturePubKey S256 Toy.sumHash bad good (of_list [x01]))
       = (zeroed 33, Some err)
       /\ kind_of err = InvalidPublicKey.
Proof.
  cbv zeta. split; [reflexivity|].
  apply (ComputeSignaturePubKey_invalid_key S256 Toy.sumHash
           (x04 :: be_bytes 32 (Curve.Gx S256)) (compress (G S256))
           (of_list [x01])).
  - reflexivity.
  - reflexivity.
  - reflexivity.
  - reflexivity.
  - right. right. left. reflexivity.
Defined.

(** C7 fails on secp256k1.  The message [GenerateNumericMessage(18081)]
    is a slice of length 32 in an array of 64 bytes; with private scalar
    2 and nonce 1, [append] finds room past the length and
    [ComputeSignature] writes the X coordinate of [R] into the caller's
    array, whatever the hash.  The 32 bytes within the length are
    unchanged. *)
Theorem ComputeSignature_overwrites_spare_capacity
    (H : list byte -> list byte) :
  let message := GenerateNumericMessage 18081 in
  let after := snd (ComputeSignature S256 H (be_bytes 32 2) (be_bytes 32 1)
                      message) in
  arr message = contents message ++ zeroed 32
  /\ after = contents message ++ be_bytes 32 (Curve.Gx S256)
  /\ after <> arr message
  /\ firstn (len message) after = contents message.
Proof.
  cbv zeta. rewrite ComputeSignature_memory.
  assert (E : snd (append (GenerateNumericMessage 18081)
                     (Bytes (X (ScalarBaseMult S256 (be_bytes 32 1)))))
              = contents (GenerateNumericMessage 18081)
                ++ be_bytes 32 (Curve.Gx S256))
    by (vm_compute; reflexivity).
  replace ((SetBytes (be_bytes 32 2) =? 0)
           || (Curve.N S256 <=? SetBytes (be_bytes 32 2))
           || (SetBytes (be_bytes 32 1) =? 0)
           || (Curve.N S256 <=? SetBytes (be_bytes 32 1)))
    with false by (vm_compute; reflexivity).
  rewrite E.
  split; [vm_compute; reflexivity|].
  split; [reflexivity|]. split; [vm_compute; discriminate|].
  vm_compute. reflexivity.
Qed.

(** The same on [ComputeSignaturePubKey], for the small curve: with both
    keys valid, the X coordinate of [R] lands in the caller's array. *)
Lemma ComputeSignaturePubKey_overwrites_spare_capacity :
  let backing := [x07; x09] ++ zeroed 6 in
  let message := mkSlice backing 2 in
  snd (ComputeSignaturePubKey Toy.curve Toy.sumHash
         (compress (mul Toy.curve 3 (G Toy.curve)))
         (compress (mul Toy.curve 5 (G Toy.curve))) message)
  = [x07; x09; x0c] ++ zeroed 5.
Proof. vm_compute. reflexivity. Qed.

(** Both functions leave the elements within the length of [message]
    as they were. *)
Lemma message_contents_preserved
    (c : Curve.params) (H : list byte -> list byte)
    (k1 k2 : list byte) (message : slice) :
  firstn (len message) (snd (ComputeSignature c H k1 k2 message))
  = contents message
  /\ firstn (len message) (snd (ComputeSignaturePubKey c H k1 k2 message))
     = contents message.
Proof.
  split.
  - rewrite ComputeSignature_memory. cbv zeta.
    destruct (_ || _); [reflexivity|apply append_prefix].
  - rewrite ComputeSignaturePubKey_memory.
    destruct (ParsePubKey c k1); [|reflexivity].
    destruct (ParsePubKey c k2); [apply append_prefix|reflexivity].
Qed.

(** A message slice without spare capacity is left alone. *)
Lemma message_untouched_without_capacity
    (c : Curve.params) (H : list byte -> list byte)
    (k1 k2 : list byte) (l : list byte) :
  snd (ComputeSignature c H k1 k2 (of_list l)) = l
  /\ snd (ComputeSignaturePubKey c H k1 k2 (of_list l)) = l.
Proof.
  assert (Ha : forall xs, snd (append (of_list l) xs) = l).
  { intros xs. unfold append, of_list, cap. cbn [len arr].
    destruct (length l + length xs <=? length l)%nat eqn:E; [|reflexivity].
    apply Nat.leb_le in E. assert (length xs = 0%nat) by lia.
    destruct xs; [|discriminate]. cbn [snd length app].
    rewrite Nat.add_0_r, firstn_all, skipn_all, app_nil_r. reflexivity. }
  split.
  - rewrite ComputeSignature_memory. cbv zeta.
    destruct (_ || _); [reflexivity|apply Ha].
  - rewrite ComputeSignaturePubKey_memory.
    destruct (ParsePubKey c k1); [|reflexivity].
    destruct (ParsePubKey c k2); [apply Ha|reflexivity].
Qed.



(** C9.  [ComputeSignaturePubKey] returns an error only when a key does
    not parse or the challenge is at least [N].  When both keys parse,
    the challenge is below [N] and [R = e A], the sum [R + (-(e A))] is
    the point at infinity, and the call returns its serialisation, the
    byte [02] followed by 32 zero bytes, without error. *)
Theorem ComputeSignaturePubKey_errors_and_degenerate
    (c : Curve.params) (H : list byte -> list byte)
    (oraclePubA oraclePubR : list byte) (message : slice) :
  0 < Curve.P c -> Z.odd (Curve.P c) = true ->
  let r := fst (ComputeSignaturePubKey c H oraclePubA oraclePubR message) in
  ((exists err, snd r = Some err) <->
   ((exists err, ParsePubKey c oraclePubA = inr err)
    \/ (exists err, ParsePubKey c oraclePubR = inr err)
    \/ (exists A R, ParsePubKey c oraclePubA = inl A
                    /\ ParsePubKey c oraclePubR = inl R
                    /\ Curve.N c
                       <= SetBytes (H (contents message ++ Bytes (X R))))))
  /\ (forall A R,
        ParsePubKey c oraclePubA = inl A ->
        ParsePubKey c oraclePubR = inl R ->
        let e := H (contents message ++ Bytes (X R)) in
        SetBytes e < Curve.N c ->
        R = ScalarMult c A e ->
        Add c (negY c (ScalarMult c A e)) R = infinity
        /\ r = (x02 :: repeat x00 32, None)).
Proof.
  intros HP Hodd r. subst r. rewrite ComputeSignaturePubKey_eq.
  destruct (ParsePubKey c oraclePubA) as [A|errA] eqn:EA.
  - destruct (ParsePubKey c oraclePubR) as [R|errR] eqn:ER.
    + cbv zeta.
      destruct (Z.leb_spec (Curve.N c)
                  (SetBytes (H (contents message ++ Bytes (X R)))))
        as [He|He].
      * split.
        -- split; [|intros _; exists ErrHashPubTooBig; reflexivity].
           intros _. right. right. exists A, R. auto.
        -- intros A' R' EA' ER'. inversion EA'. inversion ER'. subst A' R'.
           intros He'. lia.
      * split.
        -- split.
           ++ intros [err Herr]. discriminate Herr.
           ++ intros [[err Herr]|[[err Herr]|(A' & R' & EA' & ER' & He')]];
                try discriminate.
              inversion ER'. subst R'. lia.
        -- intros A' R' EA' ER'. inversion EA'. inversion ER'. subst A' R'.
           intros _ HR.
           assert (Hinf : Add c (negY c (ScalarMult c A
                            (H (contents message ++ Bytes (X R))))) R
                          = infinity).
           { rewrite <- HR. apply Add_negY_range; try assumption.
             pose proof (ParsePubKey_on_curve c oraclePubR R HP ER) as Hon.
             unfold on_curve in Hon.
             rewrite !andb_true_iff, !Z.leb_le, !Z.ltb_lt in Hon. lia. }
           split; [exact Hinf|]. rewrite Hinf. reflexivity.
    + split.
      * split; [|intros _; exists errR; reflexivity].
        intros _. right. left. exists errR. reflexivity.
      * intros A' R' _ ER'. discriminate ER'.
  - split.
    + split; [|intros _; exists errA; reflexivity].
      intros _. left. exists errA. reflexivity.
    + intros A' R' EA'. discriminate EA'.
Qed.

(** Witness of C9 on the small curve: [A = G], [R = 5 G], and a message
    for which the challenge is 5. *)
Lemma ComputeSignaturePubKey_errors_and_degenerate_witness :
  let A := compress (G Toy.curve) in
  let R := compress (mul Toy.curve 5 (G Toy.curve)) in
  let m := of_list [xf9] in
  (0 < Curve.P Toy.curve /\ Z.odd (Curve.P Toy.curve) = true)
  /\ SetBytes (Toy.sumHash (contents m
                ++ Bytes (X (mul Toy.curve 5 (G Toy.curve))))) = 5
  /\ fst (ComputeSignaturePubKey Toy.curve Toy.sumHash A R m)
     = (x02 :: repeat x00 32, None).
Proof.
  cbv zeta. split; [split; reflexivity|]. split; [reflexivity|].
  refine (proj2 (proj2 (ComputeSignaturePubKey_errors_and_degenerate
            Toy.curve Toy.sumHash
            (compress (G Toy.curve))
            (compress (mul Toy.curve 5 (G Toy.curve)))
            (of_list [xf9]) eq_refl eq_refl)
          (G Toy.curve) (mul Toy.curve 5 (G Toy.curve)) _ _ _ _)).
  - vm_compute. reflexivity.
  - vm_compute. reflexivity.
  - vm_compute. reflexivity.
  - vm_compute. reflexivity.
Defined.

(** C10.  Whenever [ComputeSignature] returns an error, the array
    returned with it is all zero. *)
Theorem ComputeSignature_error_value
    (c : Curve.params) (H : list byte -> list byte)
    (privKey oneTimeSigningKey : list byte) (message : slice)
    (v : list byte) (err : error) :
  fst (ComputeSignature c H privKey oneTimeSigningKey message)
  = (v, Some err) ->
  v = zeroed 32 /\ length v = 32%nat /\ SetBytes v = 0.
Proof.
  intros Hr.
  assert (E : v = zeroed 32).
  { unfold ComputeSignature in Hr.
    destruct (Cmp (SetBytes privKey) bigZero =? 0);
      [cbn [fst] in Hr; congruence|].
    destruct (Cmp (SetBytes privKey) (Curve.N c) >=? 0);
      [cbn [fst] in Hr; congruence|].
    destruct (Cmp (SetBytes oneTimeSigningKey) bigZero =? 0);
      [cbn [fst] in Hr; congruence|].
    destruct (Cmp (SetBytes oneTimeSigningKey) (Curve.N c) >=? 0);
      [cbn [fst] in Hr; congruence|].
    destruct (append message _) as [hashInput mem].
    destruct (Cmp (SetBytes (H (contents hashInput))) (Curve.N c) >=? 0);
      [cbn [fst] in Hr; congruence|].
    destruct (Cmp _ bigZero =? 0); cbn [fst] in Hr; congruence. }
  subst v. repeat split.
Qed.

(** Witness of C10 on the small curve: the challenge of the message
    [64] is above the order, so the call fails after the hash. *)
Lemma ComputeSignature_error_value_witness :
  let r := fst (ComputeSignature Toy.curve Toy.sumHash (be_bytes 32 3)
                  (be_bytes 32 5) (of_list [x64])) in
  snd r = Some ErrHashTooBig /\ fst r = zeroed 32.
Proof.
  cbv zeta.
  assert (Hrun :
    fst (ComputeSignature Toy.curve Toy.sumHash (be_bytes 32 3)
           (be_bytes 32 5) (of_list [x64]))
    = (fst (fst (ComputeSignature Toy.curve Toy.sumHash (be_bytes 32 3)
                   (be_bytes 32 5) (of_list [x64]))),
       Some ErrHashTooBig)) by (vm_compute; reflexivity).
  split; [rewrite Hrun; reflexivity|].
  exact (proj1 (ComputeSignature_error_value Toy.curve Toy.sumHash
                  _ _ _ _ _ Hrun)).
Defined.

(* ================================================================== *)
(** ** More on signing, anticipating and the message buffer *)

Module MoreFacts.

Import Go big btcec dlcoracle Laws Spec.
Import GoFacts CurveFacts CodecFacts DlcFacts SignFacts ParseFacts.

(** A successful call of [ComputeSignature], read backwards. *)
Lemma ComputeSignature_ok
    (c : Curve.params) (H : list byte -> list byte)
    (privKey oneTimeSigningKey : list byte) (m : slice) (sig : list byte) :
  0 < Curve.N c <= 2 ^ 256 -> Curve.BitSize c = 256 ->
  length oneTimeSigningKey = 32%nat ->
  fst (ComputeSignature c H privKey oneTimeSigningKey m) = (sig, None) ->
  let a := SetBytes privKey in
  let k := SetBytes oneTimeSigningKey in
  let e := challenge c H k (contents m) in
  let s := signature_scalar c H a k (contents m) in
  0 < a < Curve.N c /\ 0 < k < Curve.N c /\ 0 <= e < Curve.N c
  /\ 0 < s < Curve.N c /\ sig = be_bytes 32 s.
Proof.
  intros HN Hb Hlk Hsig a k e s.
  rewrite (ComputeSignature_eq c H) in Hsig by assumption.
  cbv zeta in Hsig. fold a k e s in Hsig.
  pose proof (SetBytes_range privKey) as Ha0. fold a in Ha0.
  pose proof (SetBytes_range oneTimeSigningKey) as Hk0. fold k in Hk0.
  assert (He0 : 0 <= e) by apply SetBytes_range.
  destruct (Z.eqb_spec a 0); [discriminate|].
  destruct (Z.leb_spec (Curve.N c) a); [discriminate|].
  destruct (Z.eqb_spec k 0); [discriminate|].
  destruct (Z.leb_spec (Curve.N c) k); [discriminate|].
  destruct (Z.leb_spec (Curve.N c) e); [discriminate|].
  destruct (Z.eqb_spec s 0); [discriminate|].
  assert (Hs : 0 <= s < Curve.N c) by (apply Z.mod_pos_bound; lia).
  rewrite signature_bytes in Hsig by lia.
  repeat split; try lia. congruence.
Qed.

Lemma SetBytes_be_bytes_32 (x : Z) :
  0 <= x < 2 ^ 256 -> SetBytes (be_bytes 32 x) = x.
Proof.
  intros Hx. rewrite SetBytes_be_bytes. apply Z.mod_small.
  change (256 ^ Z.of_nat 32) with (2 ^ 256). assumption.
Qed.

(** The values both functions return depend on the message only
    through the bytes within its length. *)
Lemma ComputeSignature_contents
    (c : Curve.params) (H : list byte -> list byte)
    (privKey oneTimeSigningKey : list byte) (m m' : slice) :
  contents m = contents m' ->
  fst (ComputeSignature c H privKey oneTimeSigningKey m)
  = fst (ComputeSignature c H privKey oneTimeSigningKey m').
Proof.
  intros Hm. unfold ComputeSignature.
  destruct (Cmp (SetBytes privKey) bigZero =? 0); [reflexivity|].
  destruct (Cmp (SetBytes privKey) (Curve.N c) >=? 0); [reflexivity|].
  destruct (Cmp (SetBytes oneTimeSigningKey) bigZero =? 0); [reflexivity|].
  destruct (Cmp (SetBytes oneTimeSigningKey) (Curve.N c) >=? 0);
    [reflexivity|].
  set (xs := Bytes (X (ScalarBaseMult c oneTimeSigningKey))).
  pose proof (append_contents m xs) as E1.
  pose proof (append_contents m' xs) as E2.
  destruct (append m xs) as [h1 mem1], (append m' xs) as [h2 mem2].
  cbn [fst] in E1, E2. rewrite E1, E2, Hm.
  destruct (Cmp _ (Curve.N c) >=? 0); [reflexivity|].
  destruct (Cmp _ bigZero =? 0); reflexivity.
Qed.

Lemma ComputeSignaturePubKey_contents
    (c : Curve.params) (H : list byte -> list byte)
    (oraclePubA oraclePubR : list byte) (m m' : slice) :
  contents m = contents m' ->
  fst (ComputeSignaturePubKey c H oraclePubA oraclePubR m)
  = fst (ComputeSignaturePubKey c H oraclePubA oraclePubR m').
Proof.
  intros Hm. rewrite !ComputeSignaturePubKey_eq, Hm. reflexivity.
Qed.

Section WithLaws.

Variable c : Curve.params.
Variable H : list byte -> list byte.
Hypothesis L : Laws.t c.

(** What the anticipating side computes from the public keys of two
    scalars in range. *)
Lemma ComputeSignaturePubKey_of_scalars
    (privKey oneTimeSigningKey : list byte) (m : slice) :
  length privKey = 32%nat -> length oneTimeSigningKey = 32%nat ->
  0 < SetBytes privKey < Curve.N c ->
  0 < SetBytes oneTimeSigningKey < Curve.N c ->
  let a := SetBytes privKey in
  let k := SetBytes oneTimeSigningKey in
  let e := challenge c H k (contents m) in
  let s := signature_scalar c H a k (contents m) in
  fst (ComputeSignaturePubKey c H
         (PublicKeyFromPrivateKey c privKey)
         (PublicKeyFromPrivateKey c oneTimeSigningKey) m)
  = if Curve.N c <=? e then (zeroed 33, Some ErrHashPubTooBig)
    else (compress (mul c s (G c)), None).
Proof.
  intros Hla Hlk Ha Hk a k e s.
  rewrite ComputeSignaturePubKey_eq.
  rewrite !(ParsePubKey_PublicKeyFromPrivateKey c L) by assumption.
  fold a k. cbv zeta.
  change (SetBytes (H (contents m ++ Bytes (X (mul c k (G c)))))) with e.
  destruct (Z.leb_spec (Curve.N c) e) as [He|He]; [reflexivity|].
  assert (HE : 0 <= SetBytes (H (contents m ++ Bytes (X (mul c k (G c)))))
               < Curve.N c)
    by (split; [apply SetBytes_range|exact He]).
  rewrite (anticipated_point c L) by (assumption || lia).
  rewrite SerializeCompressed_compress by apply (X_mul_bound c L).
  rewrite copy_full by (rewrite length_compress; reflexivity).
  reflexivity.
Qed.

(** The signature of a successful call, on the anticipating side. *)
Lemma sign_then_anticipate
    (privKey oneTimeSigningKey : list byte) (m m' : slice) (sig : list byte) :
  length privKey = 32%nat -> length oneTimeSigningKey = 32%nat ->
  contents m' = contents m ->
  fst (ComputeSignature c H privKey oneTimeSigningKey m) = (sig, None) ->
  fst (ComputeSignaturePubKey c H
         (PublicKeyFromPrivateKey c privKey)
         (PublicKeyFromPrivateKey c oneTimeSigningKey) m')
  = (PublicKeyFromPrivateKey c sig, None).
Proof.
  intros Hla Hlk Hm Hsig.
  pose proof (N_size c L) as HN.
  destruct (ComputeSignature_ok c H _ _ _ _ HN (BitSize_256 c L) Hlk Hsig)
    as (Ha & Hk & He & Hs & E).
  rewrite (ComputeSignaturePubKey_contents c H _ _ m' m Hm).
  rewrite ComputeSignaturePubKey_of_scalars by assumption. cbv zeta.
  rewrite (proj2 (Z.leb_gt _ _)) by lia.
  subst sig.
  rewrite (PublicKeyFromPrivateKey_laws c L) by apply length_be_bytes.
  rewrite SetBytes_be_bytes_32 by lia. reflexivity.
Qed.

(** Distinct multiples of [G] below the order are distinct points. *)
Lemma mul_inj (x y : Z) :
  0 <= x < Curve.N c -> 0 <= y < Curve.N c ->
  mul c x (G c) = mul c y (G c) -> x = y.
Proof.
  assert (Hle : forall u v, 0 <= u <= v -> v < Curve.N c ->
                            mul c u (G c) = mul c v (G c) -> u = v).
  { intros u v Huv Hv E.
    destruct (Z.eq_dec u v) as [|Hne]; [assumption|exfalso].
    apply (G_order_min c L (v - u)); [lia|].
    assert (Ev : mul c v (G c)
                 = Add c (mul c u (G c)) (mul c (v - u) (G c))).
    { rewrite <- (mul_add c L) by lia. f_equal. lia. }
    rewrite <- E in Ev.
    assert (Vu : valid c (mul c u (G c)) = true)
      by apply (valid_mul c L), (valid_G c L).
    assert (Vd : valid c (mul c (v - u) (G c)) = true)
      by apply (valid_mul c L), (valid_G c L).
    assert (Vn : valid c (negY c (mul c u (G c))) = true)
      by (apply (valid_negY c L); exact Vu).
    assert (Hd : Add c (negY c (mul c u (G c)))
                   (Add c (mul c u (G c)) (mul c (v - u) (G c)))
                 = mul c (v - u) (G c)).
    { rewrite (Add_assoc c L) by assumption.
      rewrite (Add_negY c L) by assumption.
      apply Add_inf_l. }
    rewrite <- Ev in Hd. rewrite <- Hd.
    apply (Add_negY c L). exact Vu. }
  intros Hx Hy E. destruct (Z_le_gt_dec x y).
  - apply Hle; (lia || assumption).
  - symmetry. apply Hle; try lia. symmetry. assumption.
Qed.

(** The multiple by [N - k] is the mirror image of the multiple by [k]. *)
Lemma mul_opposite (k : Z) :
  0 <= k <= Curve.N c ->
  mul c (Curve.N c - k) (G c) = negY c (mul c k (G c)).
Proof.
  intros Hk.
  assert (Vk : valid c (mul c k (G c)) = true)
    by apply (valid_mul c L), (valid_G c L).
  assert (Vo : valid c (mul c (Curve.N c - k) (G c)) = true)
    by apply (valid_mul c L), (valid_G c L).
  assert (Vn : valid c (negY c (mul c k (G c))) = true)
    by (apply (valid_negY c L); exact Vk).
  assert (Hsum : Add c (mul c k (G c)) (mul c (Curve.N c - k) (G c))
                 = infinity).
  { rewrite <- (mul_add c L) by lia.
    replace (k + (Curve.N c - k)) with (Curve.N c) by lia.
    apply (G_order c L). }
  rewrite <- (Add_inf_l c (mul c (Curve.N c - k) (G c))).
  rewrite <- (Add_negY c L (mul c k (G c)) Vk).
  rewrite <- (Add_assoc c L) by assumption.
  rewrite Hsum. apply Add_inf_r.
Qed.

End WithLaws.

Lemma skipn_zeros (k n : nat) : skipn k (repeat x00 n) = repeat x00 (n - k).
Proof.
  revert n. induction k as [|k IH]; intros n.
  - rewrite Nat.sub_0_r. reflexivity.
  - destruct n; [reflexivity|]. cbn [repeat skipn]. apply IH.
Qed.

(** [append] changes at most the elements past the length that it
    writes, and never the size of the array. *)
Lemma append_frame (s : slice) (xs : list byte) (n : nat) :
  (len s <= cap s)%nat -> (length xs <= n)%nat ->
  length (snd (append s xs)) = cap s
  /\ (forall i, (i < len s \/ len s + n <= i)%nat ->
                nth i (snd (append s xs)) x00 = nth i (arr s) x00).
Proof.
  intros Hwf Hn. unfold append, cap in *.
  destruct (len s + length xs <=? length (arr s))%nat eqn:E; cbn [snd];
    [|split; reflexivity].
  apply Nat.leb_le in E.
  assert (Hf : length (firstn (len s) (arr s)) = len s)
    by (rewrite length_firstn; lia).
  split.
  - rewrite !length_app, Hf, length_skipn. lia.
  - intros i [Hi|Hi].
    + rewrite app_nth1 by lia.
      rewrite <- (firstn_skipn (len s) (arr s)) at 2.
      rewrite app_nth1 by lia. reflexivity.
    + rewrite app_nth2 by lia. rewrite app_nth2 by lia.
      rewrite nth_skipn, Hf. f_equal. lia.
Qed.

(** The X coordinate of a scalar multiple of a reduced point takes at
    most 32 bytes. *)
Lemma Bytes_reduced_le (c : Curve.params) (p : PublicKey) :
  0 < Curve.P c <= 2 ^ 256 -> reduced c p ->
  (length (Bytes (X p)) <= 32)%nat.
Proof.
  intros HP [Hx _]. rewrite length_Bytes. apply nbytes_le.
  change (256 ^ Z.of_nat 32) with (2 ^ 256). lia.
Qed.

Lemma on_curve_reduced (c : Curve.params) (p : PublicKey) :
  on_curve c p = true -> reduced c p.
Proof.
  unfold on_curve, reduced.
  rewrite !andb_true_iff, !Z.leb_le, !Z.ltb_lt. tauto.
Qed.

Lemma reduced_negY (c : Curve.params) (p : PublicKey) :
  0 < Curve.P c -> reduced c p -> reduced c (negY c p).
Proof.
  intros HP [Hx _]. unfold reduced, negY, X, Y in *. cbn [fst snd].
  split; [assumption|]. apply Z.mod_pos_bound. assumption.
Qed.

Lemma reduced_ScalarMult (c : Curve.params) (p : PublicKey) (e : list byte) :
  0 < Curve.P c -> reduced c p -> reduced c (ScalarMult c p e).
Proof. intros HP Hp. apply reduced_mul; assumption. Qed.

Lemma reduced_ScalarBaseMult (c : Curve.params) (k : list byte) :
  0 < Curve.P c -> reduced c (G c) -> reduced c (ScalarBaseMult c k).
Proof. intros HP Hp. apply reduced_mul; assumption. Qed.

(** The hexadecimal digits are pairwise distinct, and none of them is the
    line feed. *)
Lemma hexdigit_inj (n m : Z) :
  0 <= n < 16 -> 0 <= m < 16 ->
  fmt.hexdigit n = fmt.hexdigit m -> n = m.
Proof.
  intros Hn Hm E.
  assert (Hc : forallb (fun i => forallb (fun j =>
                 implb (Ascii.eqb (fmt.hexdigit i) (fmt.hexdigit j)) (i =? j))
                 (Toy.range 16)) (Toy.range 16) = true)
    by (vm_compute; reflexivity).
  rewrite forallb_forall in Hc.
  specialize (Hc n (ToyFacts.range_In 16 n Hn)).
  rewrite forallb_forall in Hc.
  specialize (Hc m (ToyFacts.range_In 16 m Hm)).
  rewrite E, Ascii.eqb_refl in Hc. cbn [implb] in Hc.
  apply Z.eqb_eq. exact Hc.
Qed.

Lemma hexdigit_not_newline (n : Z) :
  0 <= n < 16 -> fmt.hexdigit n <> fmt.newline.
Proof.
  intros Hn E.
  assert (Hc : forallb (fun i => negb (Ascii.eqb (fmt.hexdigit i) fmt.newline))
                       (Toy.range 16) = true) by (vm_compute; reflexivity).
  rewrite forallb_forall in Hc.
  specialize (Hc n (ToyFacts.range_In 16 n Hn)).
  rewrite E, Ascii.eqb_refl in Hc. discriminate Hc.
Qed.

Lemma byte_hi_range (b : byte) : 0 <= byte_val b / 16 < 16.
Proof.
  pose proof (byte_val_range b).
  split; [apply Z.div_pos; lia|apply Z.div_lt_upper_bound; lia].
Qed.

Lemma byte_lo_range (b : byte) : 0 <= byte_val b mod 16 < 16.
Proof. apply Z.mod_pos_bound. lia. Qed.


End MoreFacts.

(* ================================================================== *)
(** ** The runs of the test-data generator *)

Module GeneratorFacts.

Import Go big btcec dlcoracle Laws Spec generator.
Import GoFacts CurveFacts CodecFacts DlcFacts SignFacts ParseFacts MoreFacts.

Lemma length_copy (dst src : list byte) : length (copy dst src) = length dst.
Proof.
  unfold copy. rewrite length_app, length_firstn, length_skipn. lia.
Qed.

Lemma length_read_array (E : Type) (source : nat -> list byte * option E)
    (i : nat) :
  length (read_array E source i) = 32%nat.
Proof. unfold read_array. rewrite length_copy. reflexivity. Qed.

Lemma length_drawn_key (E : Type) (source : nat -> list byte * option E)
    (i : nat) :
  length (drawn_key E source i) = 32%nat.
Proof.
  unfold drawn_key, GenerateOneTimeSigningKey.
  destruct (rand_Read E source (1 + 2 * i) (length (zeroed 32)))
    as [got [err|]]; cbn [fst]; rewrite length_copy; reflexivity.
Qed.

(** A slice over a whole array is not written by [append]. *)
Lemma append_of_list (l xs : list byte) : snd (append (of_list l) xs) = l.
Proof.
  unfold append, of_list, cap. cbn [len arr].
  destruct (length l + length xs <=? length l)%nat eqn:E; [|reflexivity].
  apply Nat.leb_le in E. assert (length xs = 0%nat) by lia.
  destruct xs; [|discriminate]. cbn [snd length app].
  rewrite Nat.add_0_r, firstn_all, skipn_all, app_nil_r. reflexivity.
Qed.

Lemma ComputeSignature_of_list
    (c : Curve.params) (H : list byte -> list byte)
    (k1 k2 l : list byte) :
  snd (ComputeSignature c H k1 k2 (of_list l)) = l.
Proof.
  rewrite ComputeSignature_memory. cbv zeta.
  destruct (_ || _); [reflexivity|apply append_of_list].
Qed.

Section Run.

Variable c : Curve.params.
Variable H : list byte -> list byte.
Variable E : Type.
Variable source : nat -> list byte * option E.
Hypothesis L : Laws.t c.

Variable privKey : list byte.
Hypothesis HprivKey : length privKey = 32%nat.

(** One iteration, by the outcome of its signing call: the second
    [panic] of the loop body is never reached. *)
Lemma iteration_eq (i : nat) (fs : files) :
  iteration c H E source privKey (PublicKeyFromPrivateKey c privKey) i fs =
    let fs1 := write_messages
                 (write_otsKeys fs (fmt.Sprintf_x_nl (drawn_key E source i)))
                 (fmt.Sprintf_x_nl (drawn_message E source i)) in
    match signing c H E source privKey i with
    | (_, Some err) => (fs1, Some err)
    | (sig, None) =>
      let line := fmt.Sprintf_x_nl (PublicKeyFromPrivateKey c sig) in
      (write_sGsFromMsg
         (write_sGsFromSig (write_sigs fs1 (fmt.Sprintf_x_nl sig)) line)
         line, None)
    end.
Proof.
  unfold iteration, signing, drawn_key, drawn_message.
  destruct (GenerateOneTimeSigningKey E (rand_Read E source (1 + 2 * i)))
    as [otsKey e0] eqn:Ek.
  cbn [fst].
  assert (Hk : length otsKey = 32%nat).
  { pose proof (length_drawn_key E source i) as Hl.
    unfold drawn_key in Hl. rewrite Ek in Hl. exact Hl. }
  set (m := read_array E source (2 + 2 * i)).
  assert (Hm : length m = 32%nat) by apply length_read_array.
  pose proof (ComputeSignature_of_list c H privKey otsKey m) as Hmem.
  destruct (ComputeSignature c H privKey otsKey (of_list m))
    as [[sig err] mem] eqn:Ecs.
  cbn [fst snd] in *. subst mem. cbv zeta.
  destruct err as [err|]; [reflexivity|].
  assert (Hs : fst (ComputeSignature c H privKey otsKey (of_list m))
               = (sig, None)) by (rewrite Ecs; reflexivity).
  assert (Hc : contents (mkSlice m 32) = contents (of_list m)).
  { unfold contents, of_list. cbn [arr len]. rewrite Hm. reflexivity. }
  pose proof (sign_then_anticipate c H L privKey otsKey (of_list m)
                (mkSlice m 32) sig HprivKey Hk Hc Hs) as Hp.
  destruct (ComputeSignaturePubKey c H (PublicKeyFromPrivateKey c privKey)
              (PublicKeyFromPrivateKey c otsKey) (mkSlice m 32))
    as [[v e] mem2].
  cbn [fst] in Hp. inversion Hp. reflexivity.
Qed.

(** The lines that [n] iterations from the index [i] add to a file. *)
Lemma loop_spec (n : nat) :
  forall (i : nat) (fs fs' : files) (r : option error),
  loop c H E source privKey (PublicKeyFromPrivateKey c privKey) n i fs
  = (fs', r) ->
  let key_line := fun j => fmt.Sprintf_x_nl (drawn_key E source j) in
  let msg_line := fun j => fmt.Sprintf_x_nl (drawn_message E source j) in
  let sig_line :=
    fun j => fmt.Sprintf_x_nl (fst (signing c H E source privKey j)) in
  let point_line :=
    fun j => fmt.Sprintf_x_nl
               (PublicKeyFromPrivateKey c
                  (fst (signing c H E source privKey j))) in
  privKeyFile fs' = privKeyFile fs
  /\ exists done : nat,
       (done <= n)%nat
       /\ (forall j, (j < done)%nat ->
                     snd (signing c H E source privKey (i + j)) = None)
       /\ sigs fs' = sigs fs ++ map sig_line (seq i done)
       /\ sGsFromSig fs' = sGsFromSig fs ++ map point_line (seq i done)
       /\ sGsFromMsg fs' = sGsFromMsg fs ++ map point_line (seq i done)
       /\ match r with
          | None =>
            done = n
            /\ otsKeys fs' = otsKeys fs ++ map key_line (seq i n)
            /\ messages fs' = messages fs ++ map msg_line (seq i n)
          | Some err =>
            (done < n)%nat
            /\ snd (signing c H E source privKey (i + done)) = Some err
            /\ otsKeys fs' = otsKeys fs ++ map key_line (seq i (S done))
            /\ messages fs' = messages fs ++ map msg_line (seq i (S done))
          end.
Proof.
  induction n as [|n IH]; intros i fs fs' r Hloop; cbv zeta.
  - cbn [loop] in Hloop. inversion Hloop. subst fs' r.
    split; [reflexivity|]. exists 0%nat.
    cbn [seq map]. rewrite !app_nil_r.
    repeat split; auto. intros j Hj. lia.
  - cbn [loop] in Hloop. rewrite iteration_eq in Hloop. cbv zeta in Hloop.
    destruct (signing c H E source privKey i) as [sig [err|]] eqn:Es.
    + inversion Hloop. subst fs' r. cbn [privKeyFile sigs sGsFromSig
        sGsFromMsg otsKeys messages write_messages write_otsKeys].
      split; [reflexivity|]. exists 0%nat.
      cbn [seq map]. rewrite !app_nil_r, Nat.add_0_r.
      split; [lia|]. split; [intros j Hj; lia|].
      split; [reflexivity|]. split; [reflexivity|]. split; [reflexivity|].
      split; [lia|]. split; [rewrite Es; reflexivity|].
      split; reflexivity.
    + apply IH in Hloop. cbv zeta in Hloop.
      destruct Hloop as (Hp & done & Hd & Hok & Hs1 & Hs2 & Hs3 & Hr).
      cbn [privKeyFile sigs sGsFromSig sGsFromMsg otsKeys messages
           write_messages write_otsKeys write_sigs write_sGsFromSig
           write_sGsFromMsg] in *.
      split; [exact Hp|]. exists (S done).
      cbn [seq map]. rewrite Es. cbn [fst].
      rewrite <- !app_assoc in Hs1, Hs2, Hs3. cbn [app] in Hs1, Hs2, Hs3.
      split; [lia|]. split.
      { intros [|j] Hj.
        - rewrite Nat.add_0_r, Es. reflexivity.
        - replace (i + S j)%nat with (S i + j)%nat by lia. apply Hok. lia. }
      split; [exact Hs1|]. split; [exact Hs2|]. split; [exact Hs3|].
      destruct r as [err|].
      * destruct Hr as (Hlt & He & Ho & Hm).
        rewrite <- !app_assoc in Ho, Hm. cbn [app seq map] in Ho, Hm.
        replace (i + S done)%nat with (S i + done)%nat by lia.
        repeat split; try assumption. lia.
      * destruct Hr as (Hdn & Ho & Hm).
        rewrite <- !app_assoc in Ho, Hm. cbn [app] in Ho, Hm.
        repeat split; try assumption. lia.
Qed.

End Run.

End GeneratorFacts.

(* ================================================================== *)
(** * Further properties of the package *)

Import Go big btcec dlcoracle Laws Spec.
Import GoFacts CurveFacts CodecFacts DlcFacts SignFacts ParseFacts MoreFacts.

(** X1.  On a curve that satisfies the group laws,
    [PublicKeyFromPrivateKey] is injective modulo the group order: two
    32-byte scalars that are not multiples of [N] have the same public
    key exactly when they are congruent modulo [N]; in particular two
    scalars below [N] with the same public key are the same array. *)
Theorem PublicKeyFromPrivateKey_injective
    (c : Curve.params) (x y : list byte) :
  Laws.t c -> length x = 32%nat -> length y = 32%nat ->
  SetBytes x mod Curve.N c <> 0 -> SetBytes y mod Curve.N c <> 0 ->
  (PublicKeyFromPrivateKey c x = PublicKeyFromPrivateKey c y
   <-> SetBytes x mod Curve.N c = SetBytes y mod Curve.N c)
  /\ (SetBytes x < Curve.N c -> SetBytes y < Curve.N c ->
      PublicKeyFromPrivateKey c x = PublicKeyFromPrivateKey c y -> x = y).
Proof.
  intros L Hx Hy Hx0 Hy0. pose proof (N_size c L) as HN.
  assert (Hmod : forall z, length z = 32%nat ->
            PublicKeyFromPrivateKey c z
            = compress (mul c (SetBytes z mod Curve.N c) (G c))).
  { intros z Hz. rewrite (PublicKeyFromPrivateKey_laws c L) by assumption.
    rewrite (mul_mod_order c L) by apply SetBytes_range. reflexivity. }
  assert (Hr : forall z, 0 <= SetBytes z mod Curve.N c < Curve.N c)
    by (intros z; apply Z.mod_pos_bound; lia).
  assert (Hiff : PublicKeyFromPrivateKey c x = PublicKeyFromPrivateKey c y
                 <-> SetBytes x mod Curve.N c = SetBytes y mod Curve.N c).
  { rewrite !Hmod by assumption. split.
    - intros E.
      rewrite <- !SerializeCompressed_compress in E
        by apply (X_mul_bound c L).
      apply (f_equal (ParsePubKey c)) in E.
      rewrite !(ParsePubKey_SerializeCompressed c L) in E
        by (apply (on_curve_mul c L); pose proof (Hr x); pose proof (Hr y);
            lia).
      apply (mul_inj c L); try apply Hr. congruence.
    - intros E. rewrite E. reflexivity. }
  split; [exact Hiff|].
  intros Hxn Hyn E. apply Hiff in E.
  pose proof (SetBytes_range x). pose proof (SetBytes_range y).
  rewrite !Z.mod_small in E by lia.
  rewrite <- (be_bytes_SetBytes x), <- (be_bytes_SetBytes y), Hx, Hy, E.
  reflexivity.
Qed.

(** Witness of X1 on the small curve: the scalars 3 and 34 have the
    same public key, the scalars 3 and 5 do not. *)
Lemma PublicKeyFromPrivateKey_injective_witness :
  (PublicKeyFromPrivateKey Toy.curve (be_bytes 32 3)
   = PublicKeyFromPrivateKey Toy.curve (be_bytes 32 34))
  /\ (PublicKeyFromPrivateKey Toy.curve (be_bytes 32 3)
      <> PublicKeyFromPrivateKey Toy.curve (be_bytes 32 5)).
Proof.
  split.
  - apply (proj1 (PublicKeyFromPrivateKey_injective Toy.curve
                    (be_bytes 32 3) (be_bytes 32 34) ToyFacts.toy_laws
                    eq_refl eq_refl
                    ltac:(vm_compute; discriminate)
                    ltac:(vm_compute; discriminate))).
    vm_compute. reflexivity.
  - intros E.
    apply (proj1 (PublicKeyFromPrivateKey_injective Toy.curve
                    (be_bytes 32 3) (be_bytes 32 5) ToyFacts.toy_laws
                    eq_refl eq_refl
                    ltac:(vm_compute; discriminate)
                    ltac:(vm_compute; discriminate))) in E.
    vm_compute in E. discriminate E.
Defined.

(** X2.  On a curve that satisfies the group laws, the public keys that
    [PublicKeyFromPrivateKey] derives from scalars that are not
    multiples of [N] are always accepted by [ComputeSignaturePubKey]:
    each parses to the scalar multiple of [G], and the call can fail
    only on the challenge. *)
Theorem derived_keys_are_accepted
    (c : Curve.params) (H : list byte -> list byte)
    (x y : list byte) (message : slice) :
  Laws.t c -> length x = 32%nat -> length y = 32%nat ->
  SetBytes x mod Curve.N c <> 0 -> SetBytes y mod Curve.N c <> 0 ->
  ParsePubKey c (PublicKeyFromPrivateKey c x)
  = inl (mul c (SetBytes x mod Curve.N c) (G c))
  /\ (forall err,
        snd (fst (ComputeSignaturePubKey c H (PublicKeyFromPrivateKey c x)
                    (PublicKeyFromPrivateKey c y) message)) = Some err ->
        err = ErrHashPubTooBig).
Proof.
  intros L Hx Hy Hx0 Hy0. pose proof (N_size c L) as HN.
  assert (Hparse : forall z, length z = 32%nat ->
            SetBytes z mod Curve.N c <> 0 ->
            ParsePubKey c (PublicKeyFromPrivateKey c z)
            = inl (mul c (SetBytes z mod Curve.N c) (G c))).
  { intros z Hz Hz0. rewrite (PublicKeyFromPrivateKey_laws c L) by assumption.
    rewrite (mul_mod_order c L) by apply SetBytes_range.
    rewrite <- SerializeCompressed_compress by apply (X_mul_bound c L).
    apply (ParsePubKey_SerializeCompressed c L).
    apply (on_curve_mul c L).
    pose proof (Z.mod_pos_bound (SetBytes z) (Curve.N c) ltac:(lia)). lia. }
  split; [apply Hparse; assumption|].
  intros err. rewrite ComputeSignaturePubKey_eq.
  rewrite !Hparse by assumption. cbv zeta.
  destruct (Curve.N c <=? _); cbn [fst snd]; congruence.
Qed.

(** Witness of X2 on the small curve: the scalars 34 and 5. *)
Lemma derived_keys_are_accepted_witness :
  ParsePubKey Toy.curve (PublicKeyFromPrivateKey Toy.curve (be_bytes 32 34))
  = inl (mul Toy.curve 3 (G Toy.curve)).
Proof.
  exact (proj1 (derived_keys_are_accepted Toy.curve Toy.sumHash
                  (be_bytes 32 34) (be_bytes 32 5) (of_list [x01])
                  ToyFacts.toy_laws eq_refl eq_refl
                  ltac:(vm_compute; discriminate)
                  ltac:(vm_compute; discriminate))).
Defined.



(** X4.  On a curve that satisfies the group laws, every signature that
    [ComputeSignature] returns is a scalar [s] with [0 < s < N] that
    satisfies the verification equation [s G + e A = R], where
    [A = a G] and [R = k G] are the points of the two keys and [e] is
    the hash of the message followed by the X coordinate of [R]. *)
Theorem signature_verifies
    (c : Curve.params) (H : list byte -> list byte)
    (privKey oneTimeSigningKey : list byte) (message : slice)
    (sig : list byte) :
  Laws.t c ->
  length privKey = 32%nat -> length oneTimeSigningKey = 32%nat ->
  fst (ComputeSignature c H privKey oneTimeSigningKey message)
  = (sig, None) ->
  let A := ScalarBaseMult c privKey in
  let R := ScalarBaseMult c oneTimeSigningKey in
  let e := H (contents message ++ Bytes (X R)) in
  length sig = 32%nat
  /\ 0 < SetBytes sig < Curve.N c
  /\ Add c (ScalarBaseMult c sig) (ScalarMult c A e) = R.
Proof.
  intros L Hla Hlk Hsig A R e.
  pose proof (N_size c L) as HN. pose proof (BitSize_256 c L) as Hb.
  destruct (ComputeSignature_ok c H _ _ _ _ HN Hb Hlk Hsig)
    as (Ha & Hk & He & Hs & E).
  cbv zeta in *. subst sig.
  set (a := SetBytes privKey) in *.
  set (k := SetBytes oneTimeSigningKey) in *.
  set (s := signature_scalar c H a k (contents message)) in *.
  assert (Hvs : SetBytes (be_bytes 32 s) = s)
    by (apply SetBytes_be_bytes_32; lia).
  split; [apply length_be_bytes|]. split; [rewrite Hvs; lia|].
  subst A R e.
  rewrite !(ScalarBaseMult_32 c) by (assumption || apply length_be_bytes).
  fold a k. rewrite Hvs.
  unfold challenge in He. fold k in He.
  rewrite ScalarMult_challenge by exact He.
  rewrite (mul_mul c L) by lia.
  set (e := SetBytes (H (contents message ++ Bytes (X (mul c k (G c)))))) in *.
  rewrite <- (mul_add c L) by (try lia; apply Z.mul_nonneg_nonneg; lia).
  rewrite (mul_mod_order c L) by (pose proof (Z.mul_nonneg_nonneg e a); lia).
  rewrite (mul_mod_order c L k) by lia.
  f_equal. subst s. unfold signature_scalar, challenge. fold k e.
  rewrite Z.add_mod_idemp_l by lia. f_equal. lia.
Qed.

(** Witness of X4 on the small curve: private scalar 3, nonce 5 and the
    message [07 09]; the signature is 14. *)
Lemma signature_verifies_witness :
  let privKey := be_bytes 32 3 in
  let oneTime := be_bytes 32 5 in
  let message := of_list [x07; x09] in
  fst (ComputeSignature Toy.curve Toy.sumHash privKey oneTime message)
  = (be_bytes 32 14, None)
  /\ Add Toy.curve (ScalarBaseMult Toy.curve (be_bytes 32 14))
       (ScalarMult Toy.curve (ScalarBaseMult Toy.curve privKey)
          (Toy.sumHash (contents message
                        ++ Bytes (X (ScalarBaseMult Toy.curve oneTime)))))
     = ScalarBaseMult Toy.curve oneTime.
Proof.
  cbv zeta.
  assert (Hrun :
    fst (ComputeSignature Toy.curve Toy.sumHash (be_bytes 32 3)
           (be_bytes 32 5) (of_list [x07; x09]))
    = (be_bytes 32 14, None)) by (vm_compute; reflexivity).
  split; [exact Hrun|].
  exact (proj2 (proj2 (signature_verifies Toy.curve Toy.sumHash
                         (be_bytes 32 3) (be_bytes 32 5)
                         (of_list [x07; x09]) (be_bytes 32 14)
                         ToyFacts.toy_laws eq_refl eq_refl Hrun))).
Defined.

(** X5.  Two signatures made by [ComputeSignature] with the same
    private scalar [a] and the same one-time key satisfy
    [s1 - s2 = (e2 - e1) a] modulo [N]; whoever sees both, with
    challenges whose difference is invertible modulo [N], recovers the
    private scalar as [a = (s1 - s2) / (e2 - e1)] modulo [N]. *)
Theorem nonce_reuse_reveals_private_key
    (c : Curve.params) (H : list byte -> list byte)
    (privKey oneTimeSigningKey : list byte) (m1 m2 : slice)
    (sig1 sig2 : list byte) :
  0 < Curve.N c <= 2 ^ 256 -> Curve.BitSize c = 256 ->
  length oneTimeSigningKey = 32%nat ->
  fst (ComputeSignature c H privKey oneTimeSigningKey m1) = (sig1, None) ->
  fst (ComputeSignature c H privKey oneTimeSigningKey m2) = (sig2, None) ->
  let a := SetBytes privKey in
  let Rx := X (mul c (SetBytes oneTimeSigningKey) (G c)) in
  let e1 := SetBytes (H (contents m1 ++ Bytes Rx)) in
  let e2 := SetBytes (H (contents m2 ++ Bytes Rx)) in
  (SetBytes sig1 - SetBytes sig2) mod Curve.N c
  = ((e2 - e1) * a) mod Curve.N c
  /\ (forall inv, ((e2 - e1) * inv) mod Curve.N c = 1 mod Curve.N c ->
                  a = ((SetBytes sig1 - SetBytes sig2) * inv) mod Curve.N c).
Proof.
  intros HN Hb Hlk H1 H2 a Rx e1 e2.
  destruct (ComputeSignature_ok c H _ _ _ _ HN Hb Hlk H1)
    as (Ha & Hk & _ & Hs1 & E1).
  destruct (ComputeSignature_ok c H _ _ _ _ HN Hb Hlk H2)
    as (_ & _ & _ & Hs2 & E2).
  cbv zeta in *. fold a in Ha, Hs1, Hs2, E1, E2.
  unfold signature_scalar, challenge in *.
  fold Rx in Hs1, Hs2, E1, E2. fold e1 in Hs1, E1. fold e2 in Hs2, E2.
  set (k := SetBytes oneTimeSigningKey) in *.
  subst sig1 sig2. rewrite !SetBytes_be_bytes_32 by lia.
  assert (Hlin : ((k - e1 * a) mod Curve.N c - (k - e2 * a) mod Curve.N c)
                 mod Curve.N c = ((e2 - e1) * a) mod Curve.N c).
  { rewrite <- Zminus_mod. f_equal. ring. }
  split; [exact Hlin|].
  intros inv Hinv.
  rewrite <- Zmult_mod_idemp_l, Hlin, Zmult_mod_idemp_l.
  replace ((e2 - e1) * a * inv) with (((e2 - e1) * inv) * a) by ring.
  rewrite <- Zmult_mod_idemp_l, Hinv, Zmult_mod_idemp_l.
  rewrite Z.mul_1_l. symmetry. apply Z.mod_small. lia.
Qed.

(** Witness of X5 on the small curve: private scalar 3 and nonce 5 sign
    the messages [07 09] and [01 02]; the signatures 14 and 22 and the
    challenges 28 and 15 give the private scalar back. *)
Lemma nonce_reuse_reveals_private_key_witness :
  let privKey := be_bytes 32 3 in
  let oneTime := be_bytes 32 5 in
  fst (ComputeSignature Toy.curve Toy.sumHash privKey oneTime
         (of_list [x07; x09])) = (be_bytes 32 14, None)
  /\ fst (ComputeSignature Toy.curve Toy.sumHash privKey oneTime
            (of_list [x01; x02])) = (be_bytes 32 22, None)
  /\ SetBytes privKey
     = ((SetBytes (be_bytes 32 14) - SetBytes (be_bytes 32 22)) * 19)
       mod Curve.N Toy.curve.
Proof.
  cbv zeta.
  assert (H1 :
    fst (ComputeSignature Toy.curve Toy.sumHash (be_bytes 32 3)
           (be_bytes 32 5) (of_list [x07; x09]))
    = (be_bytes 32 14, None)) by (vm_compute; reflexivity).
  assert (H2 :
    fst (ComputeSignature Toy.curve Toy.sumHash (be_bytes 32 3)
           (be_bytes 32 5) (of_list [x01; x02]))
    = (be_bytes 32 22, None)) by (vm_compute; reflexivity).
  split; [exact H1|]. split; [exact H2|].
  apply (proj2 (nonce_reuse_reveals_private_key Toy.curve Toy.sumHash
                  (be_bytes 32 3) (be_bytes 32 5)
                  (of_list [x07; x09]) (of_list [x01; x02])
                  (be_bytes 32 14) (be_bytes 32 22)
                  ltac:(vm_compute; split; [reflexivity|discriminate])
                  eq_refl eq_refl H1 H2) 19).
  vm_compute. reflexivity.
Defined.

(** X6.  On a curve that satisfies the group laws, with both scalars in
    range, the failures of the two sides correspond: [ComputeSignature]
    fails on the challenge exactly when [ComputeSignaturePubKey] does on
    the public keys, and when [ComputeSignature] fails because the
    signature scalar is 0, [ComputeSignaturePubKey] does not fail: it
    returns the encoding of the point at infinity, [02] and 32 zero
    bytes.  [ComputeSignature] fails in no other way. *)
Theorem failures_correspond
    (c : Curve.params) (H : list byte -> list byte)
    (privKey oneTimeSigningKey : list byte) (message : slice) :
  Laws.t c ->
  length privKey = 32%nat -> length oneTimeSigningKey = 32%nat ->
  0 < SetBytes privKey < Curve.N c ->
  0 < SetBytes oneTimeSigningKey < Curve.N c ->
  let rs := fst (ComputeSignature c H privKey oneTimeSigningKey message) in
  let rp := fst (ComputeSignaturePubKey c H
                   (PublicKeyFromPrivateKey c privKey)
                   (PublicKeyFromPrivateKey c oneTimeSigningKey) message) in
  (snd rs = Some ErrHashTooBig <-> snd rp = Some ErrHashPubTooBig)
  /\ (snd rs = Some ErrSigZero -> rp = (x02 :: repeat x00 32, None))
  /\ (forall err, snd rs = Some err ->
                  err = ErrHashTooBig \/ err = ErrSigZero).
Proof.
  intros L Hla Hlk Ha Hk rs rp. subst rs rp.
  rewrite (ComputeSignature_eq c H) by (assumption || apply (BitSize_256 c L)).
  rewrite (ComputeSignaturePubKey_of_scalars c H L) by assumption.
  cbv zeta.
  set (a := SetBytes privKey) in *.
  set (k := SetBytes oneTimeSigningKey) in *.
  rewrite (proj2 (Z.eqb_neq a 0)) by lia.
  rewrite (proj2 (Z.leb_gt (Curve.N c) a)) by lia.
  rewrite (proj2 (Z.eqb_neq k 0)) by lia.
  rewrite (proj2 (Z.leb_gt (Curve.N c) k)) by lia.
  destruct (Curve.N c <=? challenge c H k (contents message)).
  - cbn [fst snd]. repeat split; intros; try discriminate; auto.
    left. congruence.
  - destruct (Z.eqb_spec (signature_scalar c H a k (contents message)) 0)
      as [Es|Es]; cbn [fst snd].
    + rewrite Es. repeat split; intros; try discriminate; auto.
      right. congruence.
    + repeat split; intros; discriminate.
Qed.

(** Witness of X6 on the small curve: private scalar 3, nonce 5 and the
    empty message give the challenge 12 and the signature scalar 0. *)
Lemma failures_correspond_witness :
  let privKey := be_bytes 32 3 in
  let oneTime := be_bytes 32 5 in
  snd (fst (ComputeSignature Toy.curve Toy.sumHash privKey oneTime
              (of_list []))) = Some ErrSigZero
  /\ fst (ComputeSignaturePubKey Toy.curve Toy.sumHash
            (PublicKeyFromPrivateKey Toy.curve privKey)
            (PublicKeyFromPrivateKey Toy.curve oneTime) (of_list []))
     = (x02 :: repeat x00 32, None).
Proof.
  cbv zeta.
  assert (Hrun :
    snd (fst (ComputeSignature Toy.curve Toy.sumHash (be_bytes 32 3)
                (be_bytes 32 5) (of_list []))) = Some ErrSigZero)
    by (vm_compute; reflexivity).
  split; [exact Hrun|].
  exact (proj1 (proj2 (failures_correspond Toy.curve Toy.sumHash
                         (be_bytes 32 3) (be_bytes 32 5) (of_list [])
                         ToyFacts.toy_laws eq_refl eq_refl
                         ltac:(vm_compute; split; reflexivity)
                         ltac:(vm_compute; split; reflexivity))) Hrun).
Defined.

(** X7.  What [ComputeSignaturePubKey] returns has a fixed shape: with
    an error, the array is all zero; without an error, it is 33 bytes,
    the first of them [02] or [03] and the other 32 a big-endian X
    coordinate below the field prime. *)
Theorem ComputeSignaturePubKey_result_shape
    (c : Curve.params) (H : list byte -> list byte)
    (oraclePubA oraclePubR : list byte) (message : slice) :
  0 < Curve.P c <= 2 ^ 256 ->
  let r := fst (ComputeSignaturePubKey c H oraclePubA oraclePubR message) in
  (forall err, snd r = Some err -> fst r = zeroed 33)
  /\ (snd r = None ->
      length (fst r) = 33%nat
      /\ (hd x00 (fst r) = x02 \/ hd x00 (fst r) = x03)
      /\ 0 <= SetBytes (tl (fst r)) < Curve.P c).
Proof.
  intros HP r. subst r. rewrite ComputeSignaturePubKey_eq.
  destruct (ParsePubKey c oraclePubA) as [A|errA] eqn:EA;
    [|cbn [fst snd]; split; [reflexivity|discriminate]].
  destruct (ParsePubKey c oraclePubR) as [R|errR] eqn:ER;
    [|cbn [fst snd]; split; [reflexivity|discriminate]].
  cbv zeta.
  destruct (Curve.N c <=? _);
    [cbn [fst snd]; split; [reflexivity|discriminate]|].
  cbn [fst snd]. split; [discriminate|]. intros _.
  apply ParsePubKey_on_curve in EA, ER; try lia.
  apply on_curve_reduced in EA, ER.
  set (p := Add c (negY c (ScalarMult c A
                 (H (contents message ++ Bytes (X R))))) R).
  assert (Hp : reduced c p).
  { apply reduced_Add; [lia| |assumption].
    apply reduced_negY; [lia|]. apply reduced_ScalarMult; [lia|assumption]. }
  destruct Hp as [Hx Hy].
  rewrite SerializeCompressed_compress by lia.
  rewrite copy_full by (rewrite length_compress; reflexivity).
  split; [apply length_compress|]. unfold compress. cbn [hd tl].
  split; [destruct (Z.odd (Y p)); auto|].
  rewrite SetBytes_be_bytes_32 by lia. assumption.
Qed.

(** Witness of X7 on secp256k1: with the generator under the prefix
    [04] as the oracle key the call fails, and the array is zero. *)
Lemma ComputeSignaturePubKey_result_shape_witness :
  let r := fst (ComputeSignaturePubKey S256 Toy.sumHash
                  (x04 :: be_bytes 32 (Curve.Gx S256)) (compress (G S256))
                  (of_list [x01])) in
  snd r = Some (ErrInvalidMagicCompressed x04) /\ fst r = zeroed 33.
Proof.
  cbv zeta.
  assert (Hrun :
    snd (fst (ComputeSignaturePubKey S256 Toy.sumHash
                (x04 :: be_bytes 32 (Curve.Gx S256)) (compress (G S256))
                (of_list [x01])))
    = Some (ErrInvalidMagicCompressed x04)) by (vm_compute; reflexivity).
  split; [exact Hrun|].
  exact (proj1 (ComputeSignaturePubKey_result_shape S256 Toy.sumHash
                  (x04 :: be_bytes 32 (Curve.Gx S256)) (compress (G S256))
                  (of_list [x01])
                  ltac:(vm_compute; split; [reflexivity|discriminate]))
               _ Hrun).
Defined.

(** X8.  On a curve that satisfies the group laws, a key that
    [ComputeSignaturePubKey] returns without error is either the
    encoding of the point at infinity, [02] and 32 zero bytes, or a
    valid compressed public key: [ParsePubKey] accepts it and yields the
    point [R - e A] that was serialised. *)
Theorem anticipated_key_is_valid_or_infinity
    (c : Curve.params) (H : list byte -> list byte)
    (oraclePubA oraclePubR : list byte) (message : slice)
    (A R : PublicKey) (key : list byte) :
  Laws.t c ->
  ParsePubKey c oraclePubA = inl A -> ParsePubKey c oraclePubR = inl R ->
  fst (ComputeSignaturePubKey c H oraclePubA oraclePubR message)
  = (key, None) ->
  let e := H (contents message ++ Bytes (X R)) in
  let p := Add c (negY c (ScalarMult c A e)) R in
  (p = infinity /\ key = x02 :: repeat x00 32)
  \/ (on_curve c p = true /\ ParsePubKey c key = inl p).
Proof.
  intros L EA ER Hr e p. pose proof (P_size c L) as HP.
  rewrite ComputeSignaturePubKey_eq, EA, ER in Hr. cbv zeta in Hr.
  fold e in Hr. destruct (Curve.N c <=? SetBytes e); [discriminate|].
  fold p in Hr.
  apply ParsePubKey_on_curve in EA, ER; try lia.
  assert (VA : valid c A = true)
    by (unfold valid; rewrite EA; apply orb_true_r).
  assert (VR : valid c R = true)
    by (unfold valid; rewrite ER; apply orb_true_r).
  assert (Vp : valid c p = true).
  { apply (Add_closed c L); [|assumption].
    apply (valid_negY c L). apply (valid_mul c L). assumption. }
  assert (Hk : key = copy (zeroed 33) (SerializeCompressed p)) by congruence.
  unfold valid in Vp. apply orb_true_iff in Vp. destruct Vp as [Vp|Vp].
  - left. apply is_infinity_eq in Vp. split; [assumption|].
    rewrite Hk, Vp. reflexivity.
  - right. split; [assumption|].
    pose proof (on_curve_reduced c p Vp) as [Hx _].
    rewrite Hk, copy_full
      by (rewrite length_SerializeCompressed by lia; reflexivity).
    apply (ParsePubKey_SerializeCompressed c L). assumption.
Qed.

(** Witness of X8 on the small curve: the keys of the scalars 3 and 5
    and the message [07 09]; the anticipated key parses to [14 G]. *)
Lemma anticipated_key_is_valid_or_infinity_witness :
  let pubA := compress (mul Toy.curve 3 (G Toy.curve)) in
  let pubR := compress (mul Toy.curve 5 (G Toy.curve)) in
  let key := compress (mul Toy.curve 14 (G Toy.curve)) in
  fst (ComputeSignaturePubKey Toy.curve Toy.sumHash pubA pubR
         (of_list [x07; x09])) = (key, None)
  /\ ParsePubKey Toy.curve key = inl (mul Toy.curve 14 (G Toy.curve)).
Proof.
  cbv zeta.
  assert (Hrun :
    fst (ComputeSignaturePubKey Toy.curve Toy.sumHash
           (compress (mul Toy.curve 3 (G Toy.curve)))
           (compress (mul Toy.curve 5 (G Toy.curve)))
           (of_list [x07; x09]))
    = (compress (mul Toy.curve 14 (G Toy.curve)), None))
    by (vm_compute; reflexivity).
  split; [exact Hrun|].
  destruct (anticipated_key_is_valid_or_infinity Toy.curve Toy.sumHash
              (compress (mul Toy.curve 3 (G Toy.curve)))
              (compress (mul Toy.curve 5 (G Toy.curve)))
              (of_list [x07; x09])
              (mul Toy.curve 3 (G Toy.curve)) (mul Toy.curve 5 (G Toy.curve))
              (compress (mul Toy.curve 14 (G Toy.curve)))
              ToyFacts.toy_laws
              ltac:(vm_compute; reflexivity) ltac:(vm_compute; reflexivity)
              Hrun) as [[_ W]|[_ W]].
  - vm_compute in W. discriminate W.
  - rewrite W. vm_compute. reflexivity.
Defined.

(** X9.  The values that [ComputeSignature] and
    [ComputeSignaturePubKey] return depend on the message only through
    the bytes within its length: two slices with the same contents,
    whatever their capacity and whatever lies past their length, give
    the same result and the same error. *)
Theorem results_depend_on_contents
    (c : Curve.params) (H : list byte -> list byte)
    (key1 key2 : list byte) (m m' : slice) :
  contents m = contents m' ->
  fst (ComputeSignature c H key1 key2 m)
  = fst (ComputeSignature c H key1 key2 m')
  /\ fst (ComputeSignaturePubKey c H key1 key2 m)
     = fst (ComputeSignaturePubKey c H key1 key2 m').
Proof.
  intros Hm. split.
  - apply ComputeSignature_contents. assumption.
  - apply ComputeSignaturePubKey_contents. assumption.
Qed.

(** Witness of X9 on the small curve: the message [07 09] alone, and in
    an array of eight bytes whose last six hold other data. *)
Lemma results_depend_on_contents_witness :
  let m := of_list [x07; x09] in
  let m' := mkSlice [x07; x09; xff; xfe; xfd; xfc; xfb; xfa] 2 in
  contents m = contents m'
  /\ fst (ComputeSignature Toy.curve Toy.sumHash (be_bytes 32 3)
            (be_bytes 32 5) m)
     = fst (ComputeSignature Toy.curve Toy.sumHash (be_bytes 32 3)
              (be_bytes 32 5) m').
Proof.
  cbv zeta. split; [reflexivity|].
  exact (proj1 (results_depend_on_contents Toy.curve Toy.sumHash
                  (be_bytes 32 3) (be_bytes 32 5)
                  (of_list [x07; x09])
                  (mkSlice [x07; x09; xff; xfe; xfd; xfc; xfb; xfa] 2)
                  eq_refl)).
Defined.

(** X10.  What the two functions can do to the caller's message array
    is bounded: the array keeps its size, the bytes within the length
    of the slice are never written, and no byte at or past position
    [len + 32] is written; a slice without spare capacity is left
    exactly as it was. *)
Theorem message_frame
    (c : Curve.params) (H : list byte -> list byte)
    (key1 key2 : list byte) (m : slice) (after : list byte) :
  0 < Curve.P c <= 2 ^ 256 -> reduced c (G c) ->
  (len m <= cap m)%nat ->
  after = snd (ComputeSignature c H key1 key2 m)
  \/ after = snd (ComputeSignaturePubKey c H key1 key2 m) ->
  length after = cap m
  /\ firstn (len m) after = contents m
  /\ (forall i, (i < len m \/ len m + 32 <= i)%nat ->
                nth i after x00 = nth i (arr m) x00)
  /\ (cap m = len m -> after = arr m).
Proof.
  intros HP HG Hwf Hafter.
  assert (Happ : forall xs, (length xs <= 32)%nat ->
            after = snd (append m xs) ->
            length after = cap m
            /\ firstn (len m) after = contents m
            /\ (forall i, (i < len m \/ len m + 32 <= i)%nat ->
                          nth i after x00 = nth i (arr m) x00)
            /\ (cap m = len m -> after = arr m)).
  { intros xs Hxs ->.
    destruct (append_frame m xs 32 Hwf Hxs) as [Hl Hn].
    split; [exact Hl|]. split; [apply append_prefix|].
    split; [exact Hn|].
    intros Hc. unfold append. rewrite Hc.
    destruct (len m + length xs <=? len m)%nat eqn:E; [|reflexivity].
    apply Nat.leb_le in E. assert (length xs = 0%nat) by lia.
    destruct xs; [|discriminate]. cbn [snd length app].
    unfold cap in Hc. rewrite Nat.add_0_r, <- Hc, firstn_all, skipn_all.
    apply app_nil_r. }
  assert (Hsame : after = arr m ->
            length after = cap m
            /\ firstn (len m) after = contents m
            /\ (forall i, (i < len m \/ len m + 32 <= i)%nat ->
                          nth i after x00 = nth i (arr m) x00)
            /\ (cap m = len m -> after = arr m)).
  { intros ->. repeat split; auto. }
  destruct Hafter as [Ha|Ha].
  - rewrite ComputeSignature_memory in Ha. cbv zeta in Ha.
    destruct (_ || _); [apply Hsame; assumption|].
    apply (Happ _ (Bytes_reduced_le c _ HP
                     (reduced_ScalarBaseMult c key2 ltac:(lia) HG)) Ha).
  - rewrite ComputeSignaturePubKey_memory in Ha.
    destruct (ParsePubKey c key1); [|apply Hsame; assumption].
    destruct (ParsePubKey c key2) as [R|] eqn:ER; [|apply Hsame; assumption].
    apply ParsePubKey_on_curve in ER; [|lia].
    apply (Happ _ (Bytes_reduced_le c _ HP (on_curve_reduced c R ER)) Ha).
Qed.

(** Witness of X10 on secp256k1: the message of the value 18081, whose
    array has 64 bytes; after signing with the scalars 2 and 1 the
    first 32 bytes are as before. *)
Lemma message_frame_witness :
  let m := GenerateNumericMessage 18081 in
  let after := snd (ComputeSignature S256 Toy.sumHash (be_bytes 32 2)
                      (be_bytes 32 1) m) in
  (len m <= cap m)%nat
  /\ length after = 64%nat
  /\ firstn 32 after = contents m.
Proof.
  cbv zeta.
  assert (Hwf : (len (GenerateNumericMessage 18081)
                 <= cap (GenerateNumericMessage 18081))%nat)
    by (vm_compute; repeat constructor).
  split; [exact Hwf|].
  pose proof (message_frame S256 Toy.sumHash (be_bytes 32 2) (be_bytes 32 1)
                (GenerateNumericMessage 18081) _
                ltac:(vm_compute; split; [reflexivity|discriminate])
                ltac:(vm_compute; repeat split; discriminate)
                Hwf (or_introl eq_refl)) as (W1 & W2 & _).
  split; [exact W1|exact W2].
Defined.

(** X11.  The message that [GenerateNumericMessage] returns has 32
    spare bytes, so every call of [ComputeSignature] on it with both
    scalars in range writes into the caller's array: after the call
    the array holds the message, then the bytes of the X coordinate of
    [R], then zeros; it differs from the array before the call. *)
Theorem numeric_message_is_overwritten
    (c : Curve.params) (H : list byte -> list byte)
    (privKey oneTimeSigningKey : list byte) (value : Z) :
  0 < Curve.P c <= 2 ^ 256 -> reduced c (G c) -> Curve.BitSize c = 256 ->
  length oneTimeSigningKey = 32%nat ->
  0 < SetBytes privKey < Curve.N c ->
  0 < SetBytes oneTimeSigningKey < Curve.N c ->
  let m := GenerateNumericMessage value in
  let Rx := X (mul c (SetBytes oneTimeSigningKey) (G c)) in
  let after := snd (ComputeSignature c H privKey oneTimeSigningKey m) in
  arr m = contents m ++ zeroed 32
  /\ after = contents m ++ Bytes Rx ++ zeroed (32 - length (Bytes Rx))
  /\ (Rx <> 0 -> after <> arr m).
Proof.
  intros HP HG Hb Hlk Ha Hk m Rx after.
  assert (Hc : contents m = repeat x00 24 ++ be_bytes 8 value)
    by apply GenerateNumericMessage_contents.
  assert (Hlc : length (contents m) = 32%nat)
    by (rewrite Hc, length_app, repeat_length, length_be_bytes; reflexivity).
  assert (Harr : arr m = contents m ++ zeroed 32).
  { subst m. unfold GenerateNumericMessage, binary.Write,
      bytes.Buffer_Bytes, contents.
    cbn [arr len]. rewrite !PutUint64_be_bytes, firstn_exact. reflexivity. }
  assert (Hlen : len m = 32%nat)
    by exact (proj1 (GenerateNumericMessage_cap value)).
  assert (Hxs : (length (Bytes Rx) <= 32)%nat).
  { apply (Bytes_reduced_le c); [assumption|].
    apply reduced_mul; [lia|assumption]. }
  assert (Hafter : after = contents m ++ Bytes Rx
                           ++ zeroed (32 - length (Bytes Rx))).
  { subst after. rewrite ComputeSignature_memory. cbv zeta.
    rewrite (proj2 (Z.eqb_neq _ 0)) by lia.
    rewrite (proj2 (Z.leb_gt (Curve.N c) _)) by lia.
    rewrite (proj2 (Z.eqb_neq _ 0)) by lia.
    rewrite (proj2 (Z.leb_gt (Curve.N c) _)) by lia.
    cbn [orb]. rewrite ScalarBaseMult_32 by assumption. fold Rx.
    unfold append, cap. rewrite Harr, Hlen, length_app, Hlc.
    unfold zeroed at 1. rewrite repeat_length.
    rewrite (proj2 (Nat.leb_le _ _)) by lia. cbn [snd].
    rewrite <- Hlc at 1. rewrite firstn_exact.
    rewrite skipn_app, Hlc.
    rewrite skipn_all2 by lia. cbn [app].
    unfold zeroed. rewrite skipn_zeros.
    replace (32 - (32 + length (Bytes Rx) - 32))%nat
      with (32 - length (Bytes Rx))%nat by lia.
    reflexivity. }
  split; [exact Harr|]. split; [exact Hafter|].
  intros HRx E. rewrite Hafter, Harr in E.
  apply app_inv_head in E. apply (f_equal SetBytes) in E.
  unfold zeroed in E. rewrite SetBytes_app, repeat_length in E.
  rewrite <- (app_nil_r (repeat x00 (32 - _))) in E.
  rewrite <- (app_nil_r (repeat x00 32)) in E.
  rewrite !SetBytes_zeros in E. cbn [SetBytes fold_left] in E.
  assert (HRx0 : 0 <= Rx).
  { pose proof (reduced_mul c (SetBytes oneTimeSigningKey) (G c)
                  ltac:(lia) HG) as [Hx _]. subst Rx. lia. }
  rewrite SetBytes_Bytes in E by assumption.
  assert (0 < 256 ^ Z.of_nat (32 - length (Bytes Rx)))
    by (apply Z.pow_pos_nonneg; lia).
  nia.
Qed.

(** Witness of X11 on secp256k1: the value 18081 and the scalars 2 and
    1, for which [R] is the generator. *)
Lemma numeric_message_is_overwritten_witness :
  let m := GenerateNumericMessage 18081 in
  let after := snd (ComputeSignature S256 Toy.sumHash (be_bytes 32 2)
                      (be_bytes 32 1) m) in
  Curve.Gx S256 <> 0 /\ after <> arr m.
Proof.
  cbv zeta. split; [vm_compute; discriminate|].
  apply (numeric_message_is_overwritten S256 Toy.sumHash
           (be_bytes 32 2) (be_bytes 32 1) 18081
           ltac:(vm_compute; split; [reflexivity|discriminate])
           ltac:(vm_compute; repeat split; discriminate)
           eq_refl eq_refl
           ltac:(vm_compute; split; reflexivity)
           ltac:(vm_compute; split; reflexivity)).
  vm_compute. discriminate.
Defined.

(** X12.  [GenerateOneTimeSigningKey] returns what the random source
    delivered, a short read padded with zero bytes, together with the
    error of the source, and checks nothing: every full draw is
    returned without error.  On such a key [ComputeSignature], with a
    private scalar in range, fails with an invalid-scalar error exactly
    when the draw is 0 or at least [N]. *)
Theorem one_time_key_is_not_validated
    (E : Type) (rand_Read : nat -> list byte * option E)
    (got : list byte) (err : option E)
    (c : Curve.params) (H : list byte -> list byte)
    (privKey : list byte) (message : slice) :
  rand_Read 32%nat = (got, err) -> (length got <= 32)%nat ->
  Curve.BitSize c = 256 -> 0 < SetBytes privKey < Curve.N c ->
  GenerateOneTimeSigningKey E rand_Read
  = (got ++ zeroed (32 - length got), err)
  /\ (length got = 32%nat ->
      GenerateOneTimeSigningKey E rand_Read = (got, err)
      /\ (option_map kind_of
            (snd (fst (ComputeSignature c H privKey
                         (fst (GenerateOneTimeSigningKey E rand_Read))
                         message)))
          = Some InvalidScalar
          <-> SetBytes got = 0 \/ Curve.N c <= SetBytes got)).
Proof.
  intros Hr Hl Hb Ha.
  assert (Hg : GenerateOneTimeSigningKey E rand_Read
               = (got ++ zeroed (32 - length got), err)).
  { unfold GenerateOneTimeSigningKey.
    change (length (zeroed 32)) with 32%nat. rewrite Hr.
    assert (Hc : copy (zeroed 32) got = got ++ zeroed (32 - length got)).
    { unfold copy. change (length (zeroed 32)) with 32%nat.
      rewrite Nat.min_r by assumption. rewrite firstn_all.
      unfold zeroed. rewrite skipn_zeros. reflexivity. }
    rewrite Hc. destruct err; reflexivity. }
  split; [exact Hg|].
  intros Hfull.
  assert (Hg' : GenerateOneTimeSigningKey E rand_Read = (got, err)).
  { rewrite Hg, Hfull. cbn [Nat.sub zeroed repeat]. rewrite app_nil_r.
    reflexivity. }
  split; [exact Hg'|].
  rewrite Hg'. cbn [fst].
  rewrite (ComputeSignature_eq c H) by assumption. cbv zeta.
  rewrite (proj2 (Z.eqb_neq (SetBytes privKey) 0)) by lia.
  rewrite (proj2 (Z.leb_gt (Curve.N c) (SetBytes privKey))) by lia.
  destruct (Z.eqb_spec (SetBytes got) 0) as [E0|E0];
    [cbn; split; auto|].
  destruct (Z.leb_spec (Curve.N c) (SetBytes got)) as [E1|E1];
    [cbn; split; auto|].
  destruct (Curve.N c <=? _);
    [cbn; split; [discriminate|lia]|].
  destruct (_ =? 0); cbn; split; try discriminate; lia.
Qed.

(** Witness of X12 on secp256k1: a source that delivers 32 zero bytes. *)
Lemma one_time_key_is_not_validated_witness :
  let rand_Read := fun _ : nat => (zeroed 32, @None unit) in
  GenerateOneTimeSigningKey unit rand_Read = (zeroed 32, None)
  /\ option_map kind_of
       (snd (fst (ComputeSignature S256 Toy.sumHash (be_bytes 32 1)
                    (fst (GenerateOneTimeSigningKey unit rand_Read))
                    (of_list [x01]))))
     = Some InvalidScalar.
Proof.
  cbv zeta.
  pose proof (one_time_key_is_not_validated unit
                (fun _ : nat => (zeroed 32, @None unit)) (zeroed 32) None
                S256 Toy.sumHash (be_bytes 32 1) (of_list [x01])
                eq_refl ltac:(vm_compute; repeat constructor) eq_refl
                ltac:(vm_compute; split; reflexivity)) as [_ W].
  destruct (W eq_refl) as [W1 W2].
  split; [exact W1|]. apply W2. left. reflexivity.
Defined.

(** X13.  [fmt.Sprintf] with [%x] and a line feed, as the generator
    writes every array: a line has two characters for each byte and the
    line feed, and different arrays give different lines. *)
Theorem hex_lines_are_injective (a b : list byte) :
  String.length (fmt.Sprintf_x_nl a) = (2 * length a + 1)%nat
  /\ (fmt.Sprintf_x_nl a = fmt.Sprintf_x_nl b -> a = b).
Proof.
  split.
  - induction a as [|x a IH]; [reflexivity|].
    cbn [fmt.Sprintf_x_nl fold_right String.length length].
    unfold fmt.Sprintf_x_nl in IH. rewrite IH. lia.
  - revert b. induction a as [|x a IH]; intros [|y b] E.
    + reflexivity.
    + exfalso. cbn [fmt.Sprintf_x_nl fold_right] in E.
      injection E as E _. symmetry in E.
      exact (hexdigit_not_newline _ (byte_hi_range y) E).
    + exfalso. cbn [fmt.Sprintf_x_nl fold_right] in E.
      injection E as E _.
      exact (hexdigit_not_newline _ (byte_hi_range x) E).
    + cbn [fmt.Sprintf_x_nl fold_right] in E.
      injection E as E1 E2 E3.
      apply hexdigit_inj in E1; try apply byte_hi_range.
      apply hexdigit_inj in E2; try apply byte_lo_range.
      f_equal; [|apply IH; exact E3].
      rewrite <- (byte_of_Z_val x), <- (byte_of_Z_val y). f_equal.
      rewrite (Z.div_mod (byte_val x) 16), (Z.div_mod (byte_val y) 16) by lia.
      rewrite E1, E2. reflexivity.
Qed.

Import generator GeneratorFacts.

(** X14.  On a curve that satisfies the group laws, a run of the
    generator with [n] iterations ends normally exactly when the
    signing call of every iteration succeeds.  The files then agree:
    [signature-pubkeys-from-sig] and [signature-pubkeys-from-message]
    hold the same lines, every file of the loop has [n] lines, and line
    [j] of the signature file is the signature of the draw [j] in
    hexadecimal. *)
Theorem generator_files_agree
    (c : Curve.params) (H : list byte -> list byte)
    (E : Type) (source : nat -> list byte * option E) (n : nat) :
  Laws.t c ->
  let privKey := read_array E source 0 in
  let result := run c H E source n in
  (snd result = None
   <-> forall j, (j < n)%nat -> snd (signing c H E source privKey j) = None)
  /\ (snd result = None ->
      sGsFromSig (fst result) = sGsFromMsg (fst result)
      /\ privKeyFile (fst result) = [fmt.Sprintf_x_nl privKey]
      /\ length (otsKeys (fst result)) = n
      /\ length (messages (fst result)) = n
      /\ length (sigs (fst result)) = n
      /\ length (sGsFromSig (fst result)) = n
      /\ sigs (fst result)
         = map (fun j => fmt.Sprintf_x_nl
                           (fst (signing c H E source privKey j)))
               (seq 0 n)).
Proof.
  intros L privKey result.
  assert (Hl : length privKey = 32%nat) by apply length_read_array.
  destruct result as [fs r] eqn:Er. subst result. unfold run in Er.
  fold privKey in Er.
  apply (loop_spec c H E source L privKey Hl) in Er. cbv zeta in Er.
  cbn [privKeyFile otsKeys messages sigs sGsFromSig sGsFromMsg app] in Er.
  destruct Er as (Hp & done & Hd & Hok & Hs1 & Hs2 & Hs3 & Hr).
  cbn [fst snd]. split.
  - split.
    + intros ->. destruct Hr as (-> & _). exact Hok.
    + intros Hall. destruct r as [err|]; [exfalso|reflexivity].
      destruct Hr as (Hlt & He & _). cbn [Nat.add] in He.
      rewrite (Hall done Hlt) in He. discriminate He.
  - intros ->. destruct Hr as (-> & Ho & Hm).
    rewrite Hs1, Hs2, Hs3, Ho, Hm, Hp, !length_map, !length_seq.
    repeat split; reflexivity.
Qed.

(** Witness of X14 on the small curve: a source that delivers the
    private scalar 3, then twice the one-time key 5 with the messages
    16 and 3; two iterations end normally. *)
Lemma generator_files_agree_witness :
  let source := fun i : nat =>
    match i with
    | 0%nat => (be_bytes 32 3, @None unit)
    | 1%nat | 3%nat => (be_bytes 32 5, None)
    | 2%nat => (be_bytes 32 16, None)
    | _ => (be_bytes 32 3, None)
    end in
  let result := run Toy.curve Toy.sumHash unit source 2 in
  snd result = None
  /\ sGsFromSig (fst result) = sGsFromMsg (fst result)
  /\ length (sigs (fst result)) = 2%nat.
Proof.
  cbv zeta.
  set (source := fun i : nat =>
    match i with
    | 0%nat => (be_bytes 32 3, @None unit)
    | 1%nat | 3%nat => (be_bytes 32 5, None)
    | 2%nat => (be_bytes 32 16, None)
    | _ => (be_bytes 32 3, None)
    end).
  assert (Hrun : snd (run Toy.curve Toy.sumHash unit source 2) = None)
    by (vm_compute; reflexivity).
  split; [exact Hrun|].
  pose proof (proj2 (generator_files_agree Toy.curve Toy.sumHash unit source 2
                       ToyFacts.toy_laws) Hrun)
    as (W1 & _ & _ & _ & W2 & _).
  split; [exact W1|exact W2].
Defined.

(** X15.  On a curve that satisfies the group laws, a run of the
    generator that ends in [panic] does so in the signing call of some
    iteration [j], with the error of that call, after [j] complete
    iterations; the call of [ComputeSignaturePubKey] never makes it
    panic.  The files are then out of step: the files of the one-time
    keys and of the messages have [j + 1] lines, the three others [j]. *)
Theorem generator_panics_only_in_signing
    (c : Curve.params) (H : list byte -> list byte)
    (E : Type) (source : nat -> list byte * option E) (n : nat)
    (err : error) :
  Laws.t c ->
  let privKey := read_array E source 0 in
  let result := run c H E source n in
  snd result = Some err ->
  exists j,
    (j < n)%nat
    /\ (forall j', (j' < j)%nat ->
                   snd (signing c H E source privKey j') = None)
    /\ snd (signing c H E source privKey j) = Some err
    /\ length (otsKeys (fst result)) = S j
    /\ length (messages (fst result)) = S j
    /\ length (sigs (fst result)) = j
    /\ length (sGsFromSig (fst result)) = j
    /\ length (sGsFromMsg (fst result)) = j.
Proof.
  intros L privKey result.
  assert (Hl : length privKey = 32%nat) by apply length_read_array.
  destruct result as [fs r] eqn:Er. subst result. unfold run in Er.
  fold privKey in Er.
  apply (loop_spec c H E source L privKey Hl) in Er. cbv zeta in Er.
  cbn [privKeyFile otsKeys messages sigs sGsFromSig sGsFromMsg app] in Er.
  destruct Er as (Hp & done & Hd & Hok & Hs1 & Hs2 & Hs3 & Hr).
  cbn [fst snd]. intros ->. destruct Hr as (Hlt & He & Ho & Hm).
  exists done. cbn [Nat.add] in He.
  rewrite Hs1, Hs2, Hs3, Ho, Hm, !length_map, !length_seq.
  repeat split; auto.
Qed.

(** Witness of X15 on the small curve: [main] itself, with a source
    that delivers an all-zero private scalar, panics in the first
    iteration. *)
Lemma generator_panics_only_in_signing_witness :
  let source := fun _ : nat => (zeroed 32, @None unit) in
  snd (main Toy.curve Toy.sumHash unit source) = Some ErrPrivZero
  /\ exists j,
       (j < iterations)%nat
       /\ length (otsKeys (fst (main Toy.curve Toy.sumHash unit source)))
          = S j
       /\ length (sigs (fst (main Toy.curve Toy.sumHash unit source))) = j.
Proof.
  cbv zeta.
  assert (Hrun : snd (run Toy.curve Toy.sumHash unit
                        (fun _ : nat => (zeroed 32, @None unit)) iterations)
                 = Some ErrPrivZero) by (vm_compute; reflexivity).
  split; [exact Hrun|].
  destruct (generator_panics_only_in_signing Toy.curve Toy.sumHash unit
              (fun _ : nat => (zeroed 32, @None unit)) iterations ErrPrivZero
              ToyFacts.toy_laws Hrun)
    as (j & Hj & _ & _ & W1 & _ & W2 & _).
  exists j. split; [exact Hj|]. split; [exact W1|exact W2].
Defined.

(** X16.  The challenge covers only the X coordinate of [R].  On a
    curve that satisfies the group laws, the one-time keys [k] and
    [N - k] have public keys with the same X coordinate, so the two
    runs of [ComputeSignature] on one message hash the same input and
    fail on the challenge together; when both succeed, the two
    signatures satisfy [s + s' + 2 e a = 0] modulo [N]. *)
Theorem challenge_ignores_parity_of_R
    (c : Curve.params) (H : list byte -> list byte)
    (privKey key key' : list byte) (message : slice) :
  Laws.t c ->
  length key = 32%nat -> length key' = 32%nat ->
  0 < SetBytes key < Curve.N c ->
  SetBytes key' = Curve.N c - SetBytes key ->
  let Rx := X (ScalarBaseMult c key) in
  let e := SetBytes (H (contents message ++ Bytes Rx)) in
  let r := fst (ComputeSignature c H privKey key message) in
  let r' := fst (ComputeSignature c H privKey key' message) in
  X (ScalarBaseMult c key') = Rx
  /\ tl (PublicKeyFromPrivateKey c key') = tl (PublicKeyFromPrivateKey c key)
  /\ (snd r = Some ErrHashTooBig <-> snd r' = Some ErrHashTooBig)
  /\ (snd r = None -> snd r' = None ->
      (SetBytes (fst r) + SetBytes (fst r') + 2 * e * SetBytes privKey)
      mod Curve.N c = 0).
Proof.
  intros L Hl Hl' Hk Hk' Rx e r r'.
  pose proof (N_size c L) as HN. pose proof (BitSize_256 c L) as Hb.
  assert (HX : X (ScalarBaseMult c key') = Rx).
  { subst Rx. rewrite !(ScalarBaseMult_32 c) by assumption.
    rewrite Hk', (mul_opposite c L) by lia. reflexivity. }
  assert (He : challenge c H (SetBytes key') (contents message) = e).
  { unfold challenge. subst e.
    rewrite <- (ScalarBaseMult_32 c key' Hb Hl'), HX. reflexivity. }
  assert (He0 : challenge c H (SetBytes key) (contents message) = e).
  { unfold challenge. subst e Rx.
    rewrite <- (ScalarBaseMult_32 c key Hb Hl). reflexivity. }
  split; [exact HX|]. split.
  { rewrite !(PublicKeyFromPrivateKey_laws c L) by assumption.
    unfold compress. cbn [tl].
    rewrite <- !(ScalarBaseMult_32 c) by assumption.
    rewrite HX. reflexivity. }
  subst r r'.
  rewrite !(ComputeSignature_eq c H) by assumption. cbv zeta.
  unfold signature_scalar. rewrite He, He0.
  set (a := SetBytes privKey). set (k := SetBytes key) in *.
  rewrite Hk'.
  destruct (a =? 0); [cbn; split; [tauto|discriminate]|].
  destruct (Curve.N c <=? a); [cbn; split; [tauto|discriminate]|].
  rewrite (proj2 (Z.eqb_neq k 0)) by lia.
  rewrite (proj2 (Z.leb_gt (Curve.N c) k)) by lia.
  rewrite (proj2 (Z.eqb_neq (Curve.N c - k) 0)) by lia.
  rewrite (proj2 (Z.leb_gt (Curve.N c) (Curve.N c - k))) by lia.
  destruct (Curve.N c <=? e); [cbn; split; [tauto|discriminate]|].
  set (s := (k - e * a) mod Curve.N c).
  set (s' := (Curve.N c - k - e * a) mod Curve.N c).
  assert (Hs : 0 <= s < Curve.N c) by (apply Z.mod_pos_bound; lia).
  assert (Hs' : 0 <= s' < Curve.N c) by (apply Z.mod_pos_bound; lia).
  split.
  - destruct (s =? 0), (s' =? 0); cbn; split; discriminate.
  - destruct (s =? 0); [discriminate|]. destruct (s' =? 0); [discriminate|].
    cbn [fst snd]. intros _ _.
    rewrite !signature_bytes by lia.
    rewrite !SetBytes_be_bytes_32 by lia.
    subst s s'.
    rewrite <- Zplus_mod_idemp_l, <- Zplus_mod, Zplus_mod_idemp_l.
    replace (k - e * a + (Curve.N c - k - e * a) + 2 * e * a)
      with (1 * Curve.N c) by ring.
    apply Z.mod_mul. lia.
Qed.

(** Witness of X16 on the small curve: the one-time keys 5 and 26 sign
    the message [07 09] with the private scalar 3; the challenge is 28
    both times and the signatures are 14 and 4. *)
Lemma challenge_ignores_parity_of_R_witness :
  let privKey := be_bytes 32 3 in
  let message := of_list [x07; x09] in
  fst (ComputeSignature Toy.curve Toy.sumHash privKey (be_bytes 32 5) message)
  = (be_bytes 32 14, None)
  /\ fst (ComputeSignature Toy.curve Toy.sumHash privKey (be_bytes 32 26)
            message)
     = (be_bytes 32 4, None)
  /\ X (ScalarBaseMult Toy.curve (be_bytes 32 26))
     = X (ScalarBaseMult Toy.curve (be_bytes 32 5)).
Proof.
  cbv zeta.
  split; [vm_compute; reflexivity|]. split; [vm_compute; reflexivity|].
  exact (proj1 (challenge_ignores_parity_of_R Toy.curve Toy.sumHash
                  (be_bytes 32 3) (be_bytes 32 5) (be_bytes 32 26)
                  (of_list [x07; x09]) ToyFacts.toy_laws eq_refl eq_refl
                  ltac:(vm_compute; split; reflexivity)
                  ltac:(vm_compute; reflexivity))).
Defined.
